(** * Instruction selector: flags continuations, liveness and covering

    A shallow embedding of [src/compiler/backend/instruction-selector.h]:
    the [FlagsContinuation] class with its checked accessors and condition
    mutators, the opcode encoding, the SIMD shuffle view and its
    canonicalisation, and the liveness and covering predicates of
    [InstructionSelector]. *)

From Stdlib Require Import ZArith Bool Lia.
From Stdlib Require Import Strings.Byte.
From stdpp Require Import base decidable option numbers list vector gmap.

Local Open Scope Z_scope.

(** ** Checked assertions

    [DCHECK(c)] aborts the process when [c] is false in a build that has the
    checks compiled in, and is no code at all otherwise.  A computation is a
    function of the build; [UNREACHABLE()] is fatal in every build. *)

Inductive Build := Checked | Unchecked.

Inductive outcome (A : Type) : Type :=
  | Ok (a : A)
  | DCheckFailed
  | Unreachable.
Arguments Ok {A} a.
Arguments DCheckFailed {A}.
Arguments Unreachable {A}.

Definition M (A : Type) : Type := Build -> outcome A.

#[global] Instance M_ret : MRet M := fun A a _ => Ok a.
#[global] Instance M_bind : MBind M := fun A B f m b =>
  match m b with
  | Ok a => f a b
  | DCheckFailed => DCheckFailed
  | Unreachable => Unreachable
  end.

Definition DCHECK (c : bool) : M unit := fun b =>
  match b with
  | Checked => if c then Ok tt else DCheckFailed
  | Unchecked => Ok tt
  end.

Definition UNREACHABLE {A : Type} : M A := fun _ => Unreachable.

(** ** Types the header takes from other headers *)

(** Modelled from the spec: [FlagsMode] is declared in instruction-codes.h,
    which is not among the sources.  The constructors are the eight modes the
    spec lists and the header names. *)
Inductive FlagsMode :=
  | kFlags_none
  | kFlags_branch
  | kFlags_conditional_branch
  | kFlags_deoptimize
  | kFlags_set
  | kFlags_trap
  | kFlags_conditional_trap
  | kFlags_select.

#[global] Instance FlagsMode_eq_dec : EqDecision FlagsMode.
Proof. solve_decision. Defined.

(** Modelled from the spec: [FlagsCondition] is declared in
    instruction-codes.h, which is not among the sources.  The constructors are
    the conditions the header names: equality and the signed and unsigned
    orderings. *)
Inductive FlagsCondition :=
  | kEqual
  | kNotEqual
  | kSignedLessThan
  | kSignedGreaterThanOrEqual
  | kSignedLessThanOrEqual
  | kSignedGreaterThan
  | kUnsignedLessThan
  | kUnsignedGreaterThanOrEqual
  | kUnsignedLessThanOrEqual
  | kUnsignedGreaterThan.

#[global] Instance FlagsCondition_eq_dec : EqDecision FlagsCondition.
Proof. solve_decision. Defined.

(** Modelled from the spec: [NegateFlagsCondition] is defined in
    instruction-codes.h, which is not among the sources.  It gives the logical
    complement of a condition: less-than becomes greater-or-equal, and so on. *)
Definition NegateFlagsCondition (c : FlagsCondition) : FlagsCondition :=
  match c with
  | kEqual => kNotEqual
  | kNotEqual => kEqual
  | kSignedLessThan => kSignedGreaterThanOrEqual
  | kSignedGreaterThanOrEqual => kSignedLessThan
  | kSignedLessThanOrEqual => kSignedGreaterThan
  | kSignedGreaterThan => kSignedLessThanOrEqual
  | kUnsignedLessThan => kUnsignedGreaterThanOrEqual
  | kUnsignedGreaterThanOrEqual => kUnsignedLessThan
  | kUnsignedLessThanOrEqual => kUnsignedGreaterThan
  | kUnsignedGreaterThan => kUnsignedLessThanOrEqual
  end.

(** Modelled from the spec: [CommuteFlagsCondition] is defined in
    instruction-codes.cc, which is not among the sources.  It gives the
    condition that holds when the two operands are exchanged: less-than
    becomes greater-than, and equality is unchanged. *)
Definition CommuteFlagsCondition (c : FlagsCondition) : FlagsCondition :=
  match c with
  | kEqual => kEqual
  | kNotEqual => kNotEqual
  | kSignedLessThan => kSignedGreaterThan
  | kSignedGreaterThanOrEqual => kSignedLessThanOrEqual
  | kSignedLessThanOrEqual => kSignedGreaterThanOrEqual
  | kSignedGreaterThan => kSignedLessThan
  | kUnsignedLessThan => kUnsignedGreaterThan
  | kUnsignedGreaterThanOrEqual => kUnsignedLessThanOrEqual
  | kUnsignedLessThanOrEqual => kUnsignedGreaterThanOrEqual
  | kUnsignedGreaterThan => kUnsignedLessThan
  end.

(** Modelled from the spec: [turboshaft::OpIndex] is declared in
    turboshaft/index.h, which is not among the sources.  It is the stable
    identity of a node of the operation graph, or the invalid index. *)
Inductive OpIndex :=
  | Invalid
  | Op (id : nat).

#[global] Instance OpIndex_eq_dec : EqDecision OpIndex.
Proof. solve_decision. Defined.

Definition valid (i : OpIndex) : bool :=
  match i with Invalid => false | Op _ => true end.

(** A [turboshaft::Block*]: the null pointer or a block of the graph. *)
Definition BlockPtr := option nat.

Definition DCHECK_NOT_NULL (p : BlockPtr) : M unit := DCHECK (bool_decide (p <> None)).

(** Identifiers that the continuation only stores and hands back. *)
Definition InstructionCode := Z.
Definition DeoptimizeReason := N.
Definition FeedbackSource := N.
Definition TrapId := N.

Module BranchHint.
Inductive t := kNone | kTrue | kFalse.
End BranchHint.

(** ** FlagsContinuation *)

Record ConditionalCompare := {
  code : InstructionCode;
  compare_condition : FlagsCondition;
  default_flags : FlagsCondition;
  lhs : OpIndex;
  rhs : OpIndex
}.

Definition kMaxCompareChainSize : nat := 4.

(** [std::array<ConditionalCompare, kMaxCompareChainSize>]. *)
Definition compare_chain_t := vec ConditionalCompare kMaxCompareChainSize.

Definition front (compares : compare_chain_t) : ConditionalCompare :=
  Vector.hd compares.

Record FlagsContinuation := {
  mode_ : FlagsMode;
  condition_ : FlagsCondition;
  final_condition_ : FlagsCondition;
  num_conditional_compares_ : N;
  compares_ : compare_chain_t;
  reason_ : DeoptimizeReason;
  node_id_ : N;
  feedback_ : FeedbackSource;
  frame_state_or_result_ : OpIndex;
  true_block_ : BlockPtr;
  false_block_ : BlockPtr;
  trap_id_ : TrapId;
  true_value_ : OpIndex;
  false_value_ : OpIndex;
  hint_ : BranchHint.t
}.

(** Assignment to [condition_], the only member a method writes. *)
Definition set_condition (k : FlagsContinuation) (c : FlagsCondition) : FlagsContinuation :=
  {| mode_ := mode_ k; condition_ := c;
     final_condition_ := final_condition_ k;
     num_conditional_compares_ := num_conditional_compares_ k;
     compares_ := compares_ k; reason_ := reason_ k; node_id_ := node_id_ k;
     feedback_ := feedback_ k;
     frame_state_or_result_ := frame_state_or_result_ k;
     true_block_ := true_block_ k; false_block_ := false_block_ k;
     trap_id_ := trap_id_ k; true_value_ := true_value_ k;
     false_value_ := false_value_ k; hint_ := hint_ k |}.

(** *** Constructors

    A constructor initialises the members of its mode and leaves the others
    as they are in the storage it is given; [raw] stands for that storage.
    [hint_] has a default member initialiser. *)

Definition FlagsContinuation_none (raw : FlagsContinuation) : FlagsContinuation :=
  {| mode_ := kFlags_none; condition_ := condition_ raw;
     final_condition_ := final_condition_ raw;
     num_conditional_compares_ := num_conditional_compares_ raw;
     compares_ := compares_ raw; reason_ := reason_ raw;
     node_id_ := node_id_ raw; feedback_ := feedback_ raw;
     frame_state_or_result_ := frame_state_or_result_ raw;
     true_block_ := true_block_ raw; false_block_ := false_block_ raw;
     trap_id_ := trap_id_ raw; true_value_ := true_value_ raw;
     false_value_ := false_value_ raw; hint_ := BranchHint.kNone |}.

Definition FlagsContinuation_branch (raw : FlagsContinuation) (mode : FlagsMode)
    (condition : FlagsCondition) (true_block false_block : BlockPtr)
    (hint : BranchHint.t) : M FlagsContinuation :=
  DCHECK (bool_decide (mode = kFlags_branch));;
  DCHECK_NOT_NULL true_block;;
  DCHECK_NOT_NULL false_block;;
  mret {| mode_ := mode; condition_ := condition;
          final_condition_ := final_condition_ raw;
          num_conditional_compares_ := num_conditional_compares_ raw;
          compares_ := compares_ raw; reason_ := reason_ raw;
          node_id_ := node_id_ raw; feedback_ := feedback_ raw;
          frame_state_or_result_ := frame_state_or_result_ raw;
          true_block_ := true_block; false_block_ := false_block;
          trap_id_ := trap_id_ raw; true_value_ := true_value_ raw;
          false_value_ := false_value_ raw; hint_ := hint |}.

Definition FlagsContinuation_conditional_branch (raw : FlagsContinuation)
    (compares : compare_chain_t) (num_conditional_compares : N)
    (branch_condition : FlagsCondition) (true_block false_block : BlockPtr)
    : M FlagsContinuation :=
  DCHECK_NOT_NULL true_block;;
  DCHECK_NOT_NULL false_block;;
  mret {| mode_ := kFlags_conditional_branch;
          condition_ := compare_condition (front compares);
          final_condition_ := branch_condition;
          num_conditional_compares_ := num_conditional_compares;
          compares_ := compares; reason_ := reason_ raw;
          node_id_ := node_id_ raw; feedback_ := feedback_ raw;
          frame_state_or_result_ := frame_state_or_result_ raw;
          true_block_ := true_block; false_block_ := false_block;
          trap_id_ := trap_id_ raw; true_value_ := true_value_ raw;
          false_value_ := false_value_ raw; hint_ := BranchHint.kNone |}.

Definition FlagsContinuation_deoptimize (raw : FlagsContinuation) (mode : FlagsMode)
    (condition : FlagsCondition) (reason : DeoptimizeReason) (node_id : N)
    (feedback : FeedbackSource) (frame_state : OpIndex) : M FlagsContinuation :=
  DCHECK (bool_decide (mode = kFlags_deoptimize));;
  mret {| mode_ := mode; condition_ := condition;
          final_condition_ := final_condition_ raw;
          num_conditional_compares_ := num_conditional_compares_ raw;
          compares_ := compares_ raw; reason_ := reason;
          node_id_ := node_id; feedback_ := feedback;
          frame_state_or_result_ := frame_state;
          true_block_ := true_block_ raw; false_block_ := false_block_ raw;
          trap_id_ := trap_id_ raw; true_value_ := true_value_ raw;
          false_value_ := false_value_ raw; hint_ := BranchHint.kNone |}.

Definition FlagsContinuation_set (raw : FlagsContinuation)
    (condition : FlagsCondition) (result : OpIndex) : M FlagsContinuation :=
  DCHECK (valid result);;
  mret {| mode_ := kFlags_set; condition_ := condition;
          final_condition_ := final_condition_ raw;
          num_conditional_compares_ := num_conditional_compares_ raw;
          compares_ := compares_ raw; reason_ := reason_ raw;
          node_id_ := node_id_ raw; feedback_ := feedback_ raw;
          frame_state_or_result_ := result;
          true_block_ := true_block_ raw; false_block_ := false_block_ raw;
          trap_id_ := trap_id_ raw; true_value_ := true_value_ raw;
          false_value_ := false_value_ raw; hint_ := BranchHint.kNone |}.

Definition FlagsContinuation_trap (raw : FlagsContinuation)
    (condition : FlagsCondition) (trap_id : TrapId) : FlagsContinuation :=
  {| mode_ := kFlags_trap; condition_ := condition;
     final_condition_ := final_condition_ raw;
     num_conditional_compares_ := num_conditional_compares_ raw;
     compares_ := compares_ raw; reason_ := reason_ raw;
     node_id_ := node_id_ raw; feedback_ := feedback_ raw;
     frame_state_or_result_ := frame_state_or_result_ raw;
     true_block_ := true_block_ raw; false_block_ := false_block_ raw;
     trap_id_ := trap_id; true_value_ := true_value_ raw;
     false_value_ := false_value_ raw; hint_ := BranchHint.kNone |}.

Definition FlagsContinuation_conditional_trap (raw : FlagsContinuation)
    (compares : compare_chain_t) (num_conditional_compares : N)
    (condition : FlagsCondition) (trap_id : TrapId) : FlagsContinuation :=
  {| mode_ := kFlags_conditional_trap;
     condition_ := compare_condition (front compares);
     final_condition_ := condition;
     num_conditional_compares_ := num_conditional_compares;
     compares_ := compares; reason_ := reason_ raw;
     node_id_ := node_id_ raw; feedback_ := feedback_ raw;
     frame_state_or_result_ := frame_state_or_result_ raw;
     true_block_ := true_block_ raw; false_block_ := false_block_ raw;
     trap_id_ := trap_id; true_value_ := true_value_ raw;
     false_value_ := false_value_ raw; hint_ := BranchHint.kNone |}.

Definition FlagsContinuation_select (raw : FlagsContinuation)
    (condition : FlagsCondition) (result true_value false_value : OpIndex)
    : M FlagsContinuation :=
  DCHECK (valid result);;
  DCHECK (valid true_value);;
  DCHECK (valid false_value);;
  mret {| mode_ := kFlags_select; condition_ := condition;
          final_condition_ := final_condition_ raw;
          num_conditional_compares_ := num_conditional_compares_ raw;
          compares_ := compares_ raw; reason_ := reason_ raw;
          node_id_ := node_id_ raw; feedback_ := feedback_ raw;
          frame_state_or_result_ := result;
          true_block_ := true_block_ raw; false_block_ := false_block_ raw;
          trap_id_ := trap_id_ raw; true_value_ := true_value;
          false_value_ := false_value; hint_ := BranchHint.kNone |}.

(** *** Static factories

    The two branch constructors of the class differ only in whether [hint_]
    keeps its default, so [FlagsContinuation_branch] takes the hint. *)

Definition ForBranch (raw : FlagsContinuation) (condition : FlagsCondition)
    (true_block false_block : BlockPtr) : M FlagsContinuation :=
  FlagsContinuation_branch raw kFlags_branch condition true_block false_block
    BranchHint.kNone.

Definition ForHintedBranch (raw : FlagsContinuation) (condition : FlagsCondition)
    (true_block false_block : BlockPtr) (hint : BranchHint.t) : M FlagsContinuation :=
  FlagsContinuation_branch raw kFlags_branch condition true_block false_block hint.

Definition ForConditionalBranch (raw : FlagsContinuation)
    (compares : compare_chain_t) (num_conditional_compares : N)
    (branch_condition : FlagsCondition) (true_block false_block : BlockPtr)
    : M FlagsContinuation :=
  FlagsContinuation_conditional_branch raw compares num_conditional_compares
    branch_condition true_block false_block.

Definition ForDeoptimize (raw : FlagsContinuation) (condition : FlagsCondition)
    (reason : DeoptimizeReason) (node_id : N) (feedback : FeedbackSource)
    (frame_state : OpIndex) : M FlagsContinuation :=
  DCHECK (valid frame_state);;
  FlagsContinuation_deoptimize raw kFlags_deoptimize condition reason node_id
    feedback frame_state.

(** [frame_state] is an [OptionalV]; [value_or_invalid()] is the index
    itself, [Invalid] when there is none. *)
Definition ForDeoptimizeForTesting (raw : FlagsContinuation)
    (condition : FlagsCondition) (reason : DeoptimizeReason) (node_id : N)
    (feedback : FeedbackSource) (frame_state : OpIndex) : M FlagsContinuation :=
  FlagsContinuation_deoptimize raw kFlags_deoptimize condition reason node_id
    feedback frame_state.

Definition ForSet (raw : FlagsContinuation) (condition : FlagsCondition)
    (result : OpIndex) : M FlagsContinuation :=
  FlagsContinuation_set raw condition result.

Definition ForConditionalTrap (raw : FlagsContinuation)
    (compares : compare_chain_t) (num_conditional_compares : N)
    (condition : FlagsCondition) (trap_id : TrapId) : M FlagsContinuation :=
  mret (FlagsContinuation_conditional_trap raw compares num_conditional_compares
          condition trap_id).

Definition ForTrap (raw : FlagsContinuation) (condition : FlagsCondition)
    (trap_id : TrapId) : M FlagsContinuation :=
  mret (FlagsContinuation_trap raw condition trap_id).

Definition ForSelect (raw : FlagsContinuation) (condition : FlagsCondition)
    (result true_value false_value : OpIndex) : M FlagsContinuation :=
  FlagsContinuation_select raw condition result true_value false_value.

(** *** Mode tests *)

Definition IsNone (k : FlagsContinuation) : bool :=
  bool_decide (mode_ k = kFlags_none).
Definition IsBranch (k : FlagsContinuation) : bool :=
  bool_decide (mode_ k = kFlags_branch).
Definition IsConditionalBranch (k : FlagsContinuation) : bool :=
  bool_decide (mode_ k = kFlags_conditional_branch).
Definition IsDeoptimize (k : FlagsContinuation) : bool :=
  bool_decide (mode_ k = kFlags_deoptimize).
Definition IsSet (k : FlagsContinuation) : bool :=
  bool_decide (mode_ k = kFlags_set).
Definition IsTrap (k : FlagsContinuation) : bool :=
  bool_decide (mode_ k = kFlags_trap).
Definition IsConditionalTrap (k : FlagsContinuation) : bool :=
  bool_decide (mode_ k = kFlags_conditional_trap).
Definition IsSelect (k : FlagsContinuation) : bool :=
  bool_decide (mode_ k = kFlags_select).

(** *** Accessors *)

Definition condition (k : FlagsContinuation) : M FlagsCondition :=
  DCHECK (negb (IsNone k));; mret (condition_ k).
Definition final_condition (k : FlagsContinuation) : M FlagsCondition :=
  DCHECK (IsConditionalTrap k || IsConditionalBranch k);;
  mret (final_condition_ k).
Definition reason (k : FlagsContinuation) : M DeoptimizeReason :=
  DCHECK (IsDeoptimize k);; mret (reason_ k).
Definition node_id (k : FlagsContinuation) : M N :=
  DCHECK (IsDeoptimize k);; mret (node_id_ k).
Definition feedback (k : FlagsContinuation) : M FeedbackSource :=
  DCHECK (IsDeoptimize k);; mret (feedback_ k).
Definition frame_state (k : FlagsContinuation) : M OpIndex :=
  DCHECK (IsDeoptimize k);; mret (frame_state_or_result_ k).
Definition result (k : FlagsContinuation) : M OpIndex :=
  DCHECK (IsSet k || IsSelect k);; mret (frame_state_or_result_ k).
Definition trap_id (k : FlagsContinuation) : M TrapId :=
  DCHECK (IsTrap k || IsConditionalTrap k);; mret (trap_id_ k).
Definition true_block (k : FlagsContinuation) : M BlockPtr :=
  DCHECK (IsBranch k || IsConditionalBranch k);; mret (true_block_ k).
Definition false_block (k : FlagsContinuation) : M BlockPtr :=
  DCHECK (IsBranch k || IsConditionalBranch k);; mret (false_block_ k).
Definition hint (k : FlagsContinuation) : M BranchHint.t :=
  DCHECK (IsBranch k);; mret (hint_ k).
Definition true_value (k : FlagsContinuation) : M OpIndex :=
  DCHECK (IsSelect k);; mret (true_value_ k).
Definition false_value (k : FlagsContinuation) : M OpIndex :=
  DCHECK (IsSelect k);; mret (false_value_ k).
Definition compares (k : FlagsContinuation) : M compare_chain_t :=
  DCHECK (IsConditionalTrap k || IsConditionalBranch k);; mret (compares_ k).
Definition num_conditional_compares (k : FlagsContinuation) : M N :=
  DCHECK (IsConditionalTrap k || IsConditionalBranch k);;
  mret (num_conditional_compares_ k).

(** *** Condition mutators *)

Definition Negate (k : FlagsContinuation) : M FlagsContinuation :=
  DCHECK (negb (IsNone k));;
  DCHECK (negb (IsConditionalTrap k) && negb (IsConditionalBranch k));;
  mret (set_condition k (NegateFlagsCondition (condition_ k))).

Definition Commute (k : FlagsContinuation) : M FlagsContinuation :=
  DCHECK (negb (IsNone k));;
  DCHECK (negb (IsConditionalTrap k) && negb (IsConditionalBranch k));;
  mret (set_condition k (CommuteFlagsCondition (condition_ k))).

Definition Overwrite (k : FlagsContinuation) (condition : FlagsCondition)
    : M FlagsContinuation :=
  DCHECK (negb (IsConditionalTrap k) && negb (IsConditionalBranch k));;
  mret (set_condition k condition).

Definition OverwriteAndNegateIfEqual (k : FlagsContinuation)
    (condition : FlagsCondition) : M FlagsContinuation :=
  DCHECK (bool_decide (condition_ k = kEqual)
          || bool_decide (condition_ k = kNotEqual));;
  DCHECK (negb (IsConditionalTrap k) && negb (IsConditionalBranch k));;
  let negate := bool_decide (condition_ k = kEqual) in
  let k := set_condition k condition in
  if negate then Negate k else mret k.

Definition OverwriteUnsignedIfSigned (k : FlagsContinuation) : M FlagsContinuation :=
  DCHECK (negb (IsConditionalTrap k) && negb (IsConditionalBranch k));;
  mret (match condition_ k with
        | kSignedLessThan => set_condition k kUnsignedLessThan
        | kSignedLessThanOrEqual => set_condition k kUnsignedLessThanOrEqual
        | kSignedGreaterThan => set_condition k kUnsignedGreaterThan
        | kSignedGreaterThanOrEqual => set_condition k kUnsignedGreaterThanOrEqual
        | _ => k
        end).

(** *** Encoding into the opcode word *)

(** Modelled from the spec: [base::BitField<T, shift, size>] is declared in
    base/bit-field.h, which is not among the sources.  A field occupies
    [kSize] bits of the word from bit [kShift] on; [encode] moves a value
    into the field's position.  The word is a 32-bit unsigned integer; a
    field lies within it, so no bit is shifted out ([Encode_in_word]). *)
Record BitField := { kShift : Z; kSize : Z }.

Definition kMask (f : BitField) : Z := Z.shiftl (Z.ones (kSize f)) (kShift f).
Definition encode (f : BitField) (value : Z) : Z := Z.shiftl value (kShift f).
Definition decode (f : BitField) (word : Z) : Z :=
  Z.shiftr (Z.land word (kMask f)) (kShift f).

Section Encode.
(** The two fields of the opcode word and the numeric values of the two
    enumerations are fixed by instruction-codes.h. *)
Variables FlagsModeField FlagsConditionField : BitField.
Variable FlagsMode_value : FlagsMode -> Z.
Variable FlagsCondition_value : FlagsCondition -> Z.

Definition Encode (k : FlagsContinuation) (opcode : InstructionCode) : InstructionCode :=
  let opcode := Z.lor opcode (encode FlagsModeField (FlagsMode_value (mode_ k))) in
  if bool_decide (mode_ k <> kFlags_none)
  then Z.lor opcode (encode FlagsConditionField (FlagsCondition_value (condition_ k)))
  else opcode.
End Encode.

(** ** SIMD shuffle view *)

Definition kSimd128Size : nat := 16.
Definition kSimd128HalfSize : nat := 8.
Definition kSimd256Size : nat := 32.

(** Modelled from the spec: [turboshaft::Simd128ShuffleOp] is declared in
    turboshaft/operations.h, which is not among the sources.  The view reads
    its inputs, their count and the raw byte permutation. *)
Record Simd128ShuffleOp := {
  inputs : list OpIndex;
  shuffle : list Byte.byte
}.

Definition input_count (op : Simd128ShuffleOp) : nat := length (inputs op).

(** [op.input(i)]; the operation has no input beyond [input_count]. *)
Definition op_input (op : Simd128ShuffleOp) (i : nat) : OpIndex :=
  default Invalid (inputs op !! i).

Record SimdShuffleView := {
  node_ : OpIndex;
  input_mapping_ : list nat;
  op128_ : Simd128ShuffleOp
}.

(** The constructor, given the operation that [graph->Get(node)] casts to. *)
Definition simd_shuffle_view (node : OpIndex) (op : Simd128ShuffleOp) : SimdShuffleView :=
  {| node_ := node; input_mapping_ := seq 0 (input_count op); op128_ := op |}.

Definition isSimd128 (view : SimdShuffleView) : bool := true.

Definition data (view : SimdShuffleView) : list Byte.byte := shuffle (op128_ view).

Definition input (view : SimdShuffleView) (index : nat) : M OpIndex :=
  DCHECK (bool_decide (index < input_count (op128_ view))%nat);;
  mret (op_input (op128_ view) (default 0%nat (input_mapping_ view !! index))).

(** [std::swap] of the first two entries; a mapping shorter than two entries
    is outside what the source defines and is left as it is. *)
Definition SwapInputs (view : SimdShuffleView) : SimdShuffleView :=
  match input_mapping_ view with
  | m0 :: m1 :: rest =>
      {| node_ := node_ view; input_mapping_ := m1 :: m0 :: rest;
         op128_ := op128_ view |}
  | _ => view
  end.

Definition DuplicateFirstInput (view : SimdShuffleView) : M SimdShuffleView :=
  DCHECK (bool_decide (2 <= length (input_mapping_ view))%nat);;
  mret {| node_ := node_ view;
          input_mapping_ :=
            <[1%nat := default 0%nat (input_mapping_ view !! 0%nat)]>
              (input_mapping_ view);
          op128_ := op128_ view |}.

(** Modelled from the spec: [InstructionSelector::SwapShuffleInputs] is
    defined in instruction-selector.cc, which is not among the sources.  Its
    declaration says it swaps the two first input operands of the node. *)
Definition SwapShuffleInputs (view : SimdShuffleView) : SimdShuffleView :=
  SwapInputs view.

(** [memcpy(dst, src, n)] on byte buffers. *)
Definition memcpy (dst src : list Byte.byte) (n : nat) : list Byte.byte :=
  take n src ++ drop n dst.

Section CanonicalizeShuffle.
(** The selector state that [GetVirtualRegister] reads and extends, and the
    target-independent canonicaliser of wasm/simd-shuffle.h, which takes
    the shuffle in place and reports [needs_swap] and [is_swizzle]. *)
Variable Selector : Type.
Variable GetVirtualRegister : OpIndex -> Selector -> Z * Selector.
Variable wasm_CanonicalizeShuffle :
  nat -> nat -> bool -> list Byte.byte -> list Byte.byte * bool * bool.

(** The result is the view, the shuffle buffer, [*is_swizzle] and the
    selector.  The two operands of [==] are evaluated left to right. *)
Definition CanonicalizeShuffle (simd_size shuffle_size : nat)
    (view : SimdShuffleView) (shuffle : list Byte.byte) (sel : Selector)
    : M (SimdShuffleView * list Byte.byte * bool * Selector) :=
  shuffle ← (if bool_decide (simd_size = kSimd128Size) then
               DCHECK (isSimd128 view);;
               mret (memcpy shuffle (data view) shuffle_size)
             else if bool_decide (simd_size = kSimd256Size) then
               DCHECK (negb (isSimd128 view));;
               mret (memcpy shuffle (data view) kSimd256Size)
             else UNREACHABLE);
  input0 ← input view 0;
  let '(vreg0, sel) := GetVirtualRegister input0 sel in
  input1 ← input view 1;
  let '(vreg1, sel) := GetVirtualRegister input1 sel in
  let inputs_equal := bool_decide (vreg0 = vreg1) in
  let '(shuffle, needs_swap, is_swizzle) :=
    wasm_CanonicalizeShuffle simd_size shuffle_size inputs_equal shuffle in
  let view := if needs_swap then SwapShuffleInputs view else view in
  view ← (if is_swizzle then DuplicateFirstInput view else mret view);
  mret (view, shuffle, is_swizzle, sel).
End CanonicalizeShuffle.

(** ** Operation graph and liveness state *)

(** Modelled from the spec: the operation graph is declared in
    turboshaft/graph.h, which is not among the sources.  Nodes have a stable
    integer identity, their position in the schedule; each is grouped into a
    block, has inputs resolved by identity, and may be side-effecting or
    carry the effect that forces its emission when unused. *)
Record Operation := {
  op_block : nat;
  op_inputs : list OpIndex;
  op_side_effecting : bool;
  IsRequiredWhenUnused : bool
}.

Definition Graph := list Operation.

Definition Get (g : Graph) (node : OpIndex) : option Operation :=
  match node with Invalid => None | Op n => g !! n end.

Definition BlockOf (g : Graph) (node : OpIndex) : option nat :=
  op_block <$> Get g node.

(** [BitVector]: the set of the indices whose bit is set. *)
Definition BitVector := gset nat.

Definition Contains (bits : BitVector) (node : OpIndex) : bool :=
  match node with Invalid => false | Op n => bool_decide (n ∈ bits) end.

Record InstructionSelector := {
  schedule_ : Graph;
  defined_ : BitVector;
  used_ : BitVector
}.

(** Modelled from the spec: [IsDefined], [IsUsed] and [IsReallyUsed] are
    defined in instruction-selector.cc, which is not among the sources.
    [IsDefined] reads the definition bit.  [IsUsed] is true if the node has a
    use, and always if it has the effect IsRequiredWhenUnused;
    [IsReallyUsed] ignores that effect. *)
Definition IsDefined (sel : InstructionSelector) (node : OpIndex) : bool :=
  Contains (defined_ sel) node.

Definition IsReallyUsed (sel : InstructionSelector) (node : OpIndex) : bool :=
  Contains (used_ sel) node.

Definition IsUsed (sel : InstructionSelector) (node : OpIndex) : bool :=
  match Get (schedule_ sel) node with
  | Some op => if IsRequiredWhenUnused op then true else Contains (used_ sel) node
  | None => Contains (used_ sel) node
  end.

Definition IsLive (sel : InstructionSelector) (node : OpIndex) : bool :=
  negb (IsDefined sel node) && IsUsed sel node.

Definition IsReallyLive (sel : InstructionSelector) (node : OpIndex) : bool :=
  negb (IsDefined sel node) && IsReallyUsed sel node.

(** ** Covering *)

(** The uses of [node]: one entry, the user, for every input edge that
    points to [node], in schedule order. *)
Fixpoint uses_from (i : nat) (ops : list Operation) (node : OpIndex) : list OpIndex :=
  match ops with
  | [] => []
  | op :: rest =>
      replicate (length (filter (fun x => x = node) (op_inputs op))) (Op i)
        ++ uses_from (S i) rest node
  end.

Definition uses (g : Graph) (node : OpIndex) : list OpIndex := uses_from 0 g node.

(** The side-effecting operations of block [b]. *)
Definition side_effect_in (b : nat) (op : Operation) : Prop :=
  op_side_effecting op = true /\ op_block op = b.

#[global] Instance side_effect_in_dec b op : Decision (side_effect_in b op).
Proof. unfold side_effect_in. apply _. Defined.

(** Modelled from the spec: the effect level is assigned by the block scan of
    instruction-selector.cc, which is not among the sources.  It is an
    ordinal, monotonic within a block scan and incremented at each
    side-effecting operation: the number of side-effecting operations of the
    block that the scan has passed when it reaches the node. *)
Definition effect_level_at (g : Graph) (b : nat) (n : nat) : Z :=
  Z.of_nat (length (filter (side_effect_in b) (take n g))).

Definition GetEffectLevel (sel : InstructionSelector) (node : OpIndex) : Z :=
  match node, BlockOf (schedule_ sel) node with
  | Op n, Some b => effect_level_at (schedule_ sel) b n
  | _, _ => 0
  end.

(** The side-effecting operations of block [b] scheduled strictly between
    positions [lo] and [hi]. *)
Definition side_effects_between (g : Graph) (b : nat) (lo hi : nat) : list Operation :=
  filter (side_effect_in b) (drop (S lo) (take hi g)).

(** Modelled from the spec: [InstructionSelector::CanCover] is defined in
    instruction-selector.cc, which is not among the sources.  Its declaration
    says a node can be covered if the user of the node has the only edge, the
    two are in the same basic block, and there are no side-effects
    in-between.  The spec gives the last condition through the effect levels,
    as a condition that the result implies. *)
Definition CanCover (sel : InstructionSelector) (user node : OpIndex) : bool :=
  let g := schedule_ sel in
  match user, node, BlockOf g user, BlockOf g node with
  | Op u, Op n, Some bu, Some bn =>
      bool_decide (uses g node = [user])
      && bool_decide (bu = bn)
      && bool_decide (side_effects_between g bn n u = [])
  | _, _, _, _ => false
  end.

(** ** Auxiliary definitions for the statements *)

(** A chain mode carries a conditional-compare chain. *)
Definition is_chain (k : FlagsContinuation) : bool :=
  IsConditionalBranch k || IsConditionalTrap k.

(** What a checked accessor gives: the member in an allowed mode, a failed
    assertion in any other. *)
Definition checked_read {A : Type} (allowed : list FlagsMode)
    (member : FlagsContinuation -> A) (k : FlagsContinuation) : outcome A :=
  if bool_decide (mode_ k ∈ allowed) then Ok (member k) else DCheckFailed.

Definition is_signed_comparison (c : FlagsCondition) : bool :=
  match c with
  | kSignedLessThan | kSignedLessThanOrEqual
  | kSignedGreaterThan | kSignedGreaterThanOrEqual => true
  | _ => false
  end.

(** A field is well formed when it lies in the non-negative bit positions;
    a value fits a field when it needs no more than the field's bits; two
    fields are disjoint when one ends before the other begins. *)
Definition field_wf (f : BitField) : Prop := 0 <= kShift f /\ 0 <= kSize f.
Definition fits (f : BitField) (value : Z) : Prop := 0 <= value < 2 ^ kSize f.
Definition fields_disjoint (f g : BitField) : Prop :=
  kShift f + kSize f <= kShift g \/ kShift g + kSize g <= kShift f.
Definition in_field (f : BitField) (i : Z) : Prop :=
  kShift f <= i < kShift f + kSize f.

(** Whether the node carries the effect that forces its emission. *)
Definition has_forced_emission (sel : InstructionSelector) (node : OpIndex) : bool :=
  match Get (schedule_ sel) node with
  | Some op => IsRequiredWhenUnused op
  | None => false
  end.

(** [s] is a side-effecting operation of block [b]. *)
Definition side_effecting_in (g : Graph) (b : nat) (s : OpIndex) : Prop :=
  exists op, Get g s = Some op /\ side_effect_in b op.

(** The input mapping of a view after canonicalisation. *)
Definition canonical_mapping (needs_swap is_swizzle : bool) : list nat :=
  let first := if needs_swap then 1%nat else 0%nat in
  let second := if needs_swap then 0%nat else 1%nat in
  if is_swizzle then [first; first] else [first; second].

(** ** Sample values *)

Definition sample_compare : ConditionalCompare :=
  {| code := 7; compare_condition := kSignedLessThan;
     default_flags := kNotEqual; lhs := Op 1; rhs := Op 2 |}.

Definition sample_chain : compare_chain_t :=
  [# sample_compare; sample_compare; sample_compare; sample_compare].

(** Storage before a constructor has run. *)
Definition sample_raw : FlagsContinuation :=
  {| mode_ := kFlags_none; condition_ := kUnsignedGreaterThan;
     final_condition_ := kEqual; num_conditional_compares_ := 0%N;
     compares_ := sample_chain; reason_ := 0%N; node_id_ := 0%N; feedback_ := 0%N;
     frame_state_or_result_ := Invalid; true_block_ := None;
     false_block_ := None; trap_id_ := 0%N; true_value_ := Invalid;
     false_value_ := Invalid; hint_ := BranchHint.kNone |}.

Definition sample_branch : FlagsContinuation :=
  {| mode_ := kFlags_branch; condition_ := kEqual;
     final_condition_ := kEqual; num_conditional_compares_ := 0%N;
     compares_ := sample_chain; reason_ := 0%N; node_id_ := 0%N; feedback_ := 0%N;
     frame_state_or_result_ := Invalid; true_block_ := Some 1%nat;
     false_block_ := Some 2%nat; trap_id_ := 0%N; true_value_ := Invalid;
     false_value_ := Invalid; hint_ := BranchHint.kNone |}.

(** A conditional branch made with a count of five. *)
Definition oversized_chain_branch : FlagsContinuation :=
  {| mode_ := kFlags_conditional_branch; condition_ := kSignedLessThan;
     final_condition_ := kNotEqual; num_conditional_compares_ := 5%N;
     compares_ := sample_chain; reason_ := 0%N; node_id_ := 0%N; feedback_ := 0%N;
     frame_state_or_result_ := Invalid; true_block_ := Some 1%nat;
     false_block_ := Some 2%nat; trap_id_ := 0%N; true_value_ := Invalid;
     false_value_ := Invalid; hint_ := BranchHint.kNone |}.

(** A layout of the opcode word: the mode in three bits from bit 14, the
    condition in five bits from bit 17, the enumerators numbered in the order
    of their declaration. *)
Definition sample_FlagsModeField : BitField := {| kShift := 14; kSize := 3 |}.
Definition sample_FlagsConditionField : BitField := {| kShift := 17; kSize := 5 |}.

Definition sample_FlagsMode_value (m : FlagsMode) : Z :=
  match m with
  | kFlags_none => 0
  | kFlags_branch => 1
  | kFlags_conditional_branch => 2
  | kFlags_deoptimize => 3
  | kFlags_set => 4
  | kFlags_trap => 5
  | kFlags_conditional_trap => 6
  | kFlags_select => 7
  end.

Definition sample_FlagsCondition_value (c : FlagsCondition) : Z :=
  match c with
  | kEqual => 0
  | kNotEqual => 1
  | kSignedLessThan => 2
  | kSignedGreaterThanOrEqual => 3
  | kSignedLessThanOrEqual => 4
  | kSignedGreaterThan => 5
  | kUnsignedLessThan => 6
  | kUnsignedGreaterThanOrEqual => 7
  | kUnsignedLessThanOrEqual => 8
  | kUnsignedGreaterThan => 9
  end.

(** A shuffle of two inputs, a selector whose virtual register of a node is
    its id, and a canonicaliser that asks for a swap when the first index
    names the second input and reports a swizzle when the inputs are equal. *)
Definition sample_shuffle_op : Simd128ShuffleOp :=
  {| inputs := [Op 3; Op 5];
     shuffle := [x10; x11; x12; x13; x14; x15; x16; x17;
                 x18; x19; x1a; x1b; x1c; x1d; x1e; x1f] |}.

Definition sample_swizzle_op : Simd128ShuffleOp :=
  {| inputs := [Op 4; Op 4];
     shuffle := [x10; x11; x12; x13; x14; x15; x16; x17;
                 x18; x19; x1a; x1b; x1c; x1d; x1e; x1f] |}.

Definition sample_GetVirtualRegister (node : OpIndex) (sel : unit) : Z * unit :=
  (match node with Invalid => -1 | Op n => Z.of_nat n end, sel).

Definition sample_wasm_CanonicalizeShuffle (simd_size shuffle_size : nat)
    (inputs_equal : bool) (shuffle : list Byte.byte) : list Byte.byte * bool * bool :=
  (shuffle,
   match shuffle with
   | first :: _ => bool_decide (16 <= Byte.to_N first)%N
   | [] => false
   end,
   inputs_equal).

Definition sample_buffer : list Byte.byte := replicate 16 x00.

(** A schedule: a parameter; an add of it with itself; a compare of the add;
    a store; a load; two stores of the compare; a user of the load; a
    constant; and, in the next block, the only user of the constant. *)
Definition pure_op (b : nat) (ins : list OpIndex) : Operation :=
  {| op_block := b; op_inputs := ins; op_side_effecting := false;
     IsRequiredWhenUnused := false |}.
Definition store_op (b : nat) (ins : list OpIndex) : Operation :=
  {| op_block := b; op_inputs := ins; op_side_effecting := true;
     IsRequiredWhenUnused := true |}.

Definition sample_graph : Graph :=
  [ pure_op 0 [];
    pure_op 0 [Op 0; Op 0];
    pure_op 0 [Op 1];
    store_op 0 [Op 0];
    pure_op 0 [];
    store_op 0 [Op 2];
    store_op 0 [Op 2];
    pure_op 0 [Op 4];
    pure_op 0 [];
    pure_op 1 [Op 8] ].

Definition sample_selector : InstructionSelector :=
  {| schedule_ := sample_graph; defined_ := {[ 7%nat ]};
     used_ := {[ 0%nat; 1%nat; 2%nat; 4%nat ]} |}.

(** ** Checks that are fatal in every build

    [CHECK] is compiled into every build; the views below use it beside
    [DCHECK] and [UNREACHABLE]. *)

Inductive Abort := CheckFailure | DCheckFailure | UnreachableCode.

Inductive completion (A : Type) : Type :=
  | Return (a : A)
  | Die (why : Abort).
Arguments Return {A} a.
Arguments Die {A} why.

Definition R (A : Type) : Type := Build -> completion A.

#[global] Instance R_ret : MRet R := fun A a _ => Return a.
#[global] Instance R_bind : MBind R := fun A B f m b =>
  match m b with
  | Return a => f a b
  | Die why => Die why
  end.

Definition lift {A : Type} (m : M A) : R A := fun b =>
  match m b with
  | Ok a => Return a
  | DCheckFailed => Die DCheckFailure
  | Unreachable => Die UnreachableCode
  end.

Definition CHECK (c : bool) : R unit := fun _ =>
  if c then Return tt else Die CheckFailure.

Definition dcheck (c : bool) : R unit := lift (DCHECK c).
Definition unreachable {A : Type} : R A := lift UNREACHABLE.

(** ** Machine integers *)

Definition kMinInt32 : Z := - 2 ^ 31.
Definition kMaxInt32 : Z := 2 ^ 31 - 1.
Definition is_int32 (z : Z) : Prop := kMinInt32 <= z <= kMaxInt32.

(** The value an [int32_t] holds after an operation whose exact result is
    [z]. *)
Definition int32_wrap (z : Z) : Z := (z + 2 ^ 31) mod 2 ^ 32 - 2 ^ 31.

(** The value an [unsigned] holds. *)
Definition uint32_wrap (z : Z) : Z := z mod 2 ^ 32.

(** ** InstructionSelector::Features *)

Module Features.

Record t := { bits_ : Z }.

(** [Features()], [Features(unsigned bits)], [Features(CpuFeature f)] and
    [Features(CpuFeature f1, CpuFeature f2)]; a feature is the value of its
    enumerator. *)
Definition empty : t := {| bits_ := 0 |}.
Definition of_bits (bits : Z) : t := {| bits_ := bits |}.
Definition single (f : Z) : t := {| bits_ := uint32_wrap (Z.shiftl 1 f) |}.
Definition pair (f1 f2 : Z) : t :=
  {| bits_ := Z.lor (uint32_wrap (Z.shiftl 1 f1)) (uint32_wrap (Z.shiftl 1 f2)) |}.

Definition Contains (s : t) (f : Z) : bool :=
  negb (Z.land (bits_ s) (uint32_wrap (Z.shiftl 1 f)) =? 0).

End Features.

Definition IsSupported (features_ : Features.t) (feature : Z) : bool :=
  Features.Contains features_ feature.

(** ** FrameStateInput *)

Inductive FrameStateInputKind := kAny | kStackSlot.

#[global] Instance FrameStateInputKind_eq_dec : EqDecision FrameStateInputKind.
Proof. solve_decision. Defined.

Module FrameStateInput.

Record t := { node : OpIndex; kind : FrameStateInputKind }.

Definition kind_value (k : FrameStateInputKind) : Z :=
  match k with kAny => 0 | kStackSlot => 1 end.

Section Hash.
(** [base::hash_combine], of base/hashing.h. *)
Variable hash_combine : OpIndex -> Z -> Z.

Definition Hash (source : t) : Z :=
  hash_combine (node source) (kind_value (kind source)).
End Hash.

Definition Equal (lhs rhs : t) : bool :=
  bool_decide (node lhs = node rhs) && bool_decide (kind lhs = kind rhs).

End FrameStateInput.

(** ** Operations that the views and the constant tests read *)

(** Modelled from the spec: [turboshaft::LoadOp::Kind], [LoadOp],
    [Simd128LoadTransformOp], [StoreOp] and [ConstantOp] are declared in
    turboshaft/operations.h, which is not among the sources.  The records
    have the members that the header reads. *)
Record MemoryAccessOpKind := {
  tagged_base : bool;
  is_atomic : bool;
  with_trap_handler : bool;
  trap_on_null : bool
}.

Record LoadOp := {
  load_base : OpIndex;
  load_index : OpIndex;
  load_offset : Z;
  load_element_size_log2 : Z;
  load_kind : MemoryAccessOpKind
}.

Record Simd128LoadTransformOp := {
  transform_base : OpIndex;
  transform_index : OpIndex;
  transform_offset : Z;
  transform_load_kind : MemoryAccessOpKind
}.

Record StoreOp := {
  store_base : OpIndex;
  store_index : OpIndex;
  store_value : OpIndex;
  store_offset : Z;
  store_element_size_log2 : Z;
  store_kind : MemoryAccessOpKind
}.

Module ConstantOp.
Inductive Kind :=
  | kHeapObject
  | kExternal
  | kRelocatableWasmCall
  | kRelocatableWasmStubCall
  | kOther (tag : nat).
End ConstantOp.

#[global] Instance ConstantOp_Kind_eq_dec : EqDecision ConstantOp.Kind.
Proof. solve_decision. Defined.

(** What [graph->Get(node)] gives, as far as the header tells operations
    apart. *)
Inductive TsOperation :=
  | TsLoad (op : LoadOp)
  | TsSimd128LoadTransform (op : Simd128LoadTransformOp)
  | TsStore (op : StoreOp)
  | TsConstant (kind : ConstantOp.Kind)
  | TsRetain
  | TsOther.

(** [TryCast<ConstantOp>]. *)
Definition TryCast_ConstantOp (op : TsOperation) : option ConstantOp.Kind :=
  match op with TsConstant kind => Some kind | _ => None end.

Definition IsRetain (op : TsOperation) : bool :=
  match op with TsRetain => true | _ => false end.

Definition IsHeapConstant (op : TsOperation) : bool :=
  match TryCast_ConstantOp op with
  | None => false
  | Some kind => bool_decide (kind = ConstantOp.kHeapObject)
  end.

Definition IsExternalConstant (op : TsOperation) : bool :=
  match TryCast_ConstantOp op with
  | None => false
  | Some kind => bool_decide (kind = ConstantOp.kExternal)
  end.

Definition IsRelocatableWasmConstant (op : TsOperation) : bool :=
  match TryCast_ConstantOp op with
  | None => false
  | Some kind =>
      bool_decide (kind = ConstantOp.kRelocatableWasmCall)
      || bool_decide (kind = ConstantOp.kRelocatableWasmStubCall)
  end.

Definition IsLoadOrLoadImmutable (op : TsOperation) : bool :=
  match op with TsLoad _ => true | _ => false end.

(** With WebAssembly and without the 256-bit revectoriser. *)
Definition is_load (op : TsOperation) : bool :=
  match op with
  | TsLoad _ | TsSimd128LoadTransform _ => true
  | _ => false
  end.

Section Views.
(** [kHeapObjectTag], of common/globals.h. *)
Variable kHeapObjectTag : Z.

(** The displacement of an access at [offset]: for a tagged base the tag is
    taken off, after a check that this stays an [int32_t]. *)
Definition untagged_displacement (kind : MemoryAccessOpKind) (offset : Z) : R Z :=
  if tagged_base kind then
    CHECK (kMinInt32 + kHeapObjectTag <=? offset);;
    mret (int32_wrap (offset - kHeapObjectTag))
  else mret offset.
End Views.

Module LoadView.

Record t := {
  node_ : OpIndex;
  load_ : option LoadOp;
  load_transform_ : option Simd128LoadTransformOp
}.

Definition make (op : TsOperation) (node : OpIndex) : R t :=
  match op with
  | TsLoad l =>
      mret {| node_ := node; load_ := Some l; load_transform_ := None |}
  | TsSimd128LoadTransform x =>
      mret {| node_ := node; load_ := None; load_transform_ := Some x |}
  | _ => unreachable
  end.

Definition kind (v : t) : R MemoryAccessOpKind :=
  match load_ v, load_transform_ v with
  | Some l, _ => mret (load_kind l)
  | None, Some x => mret (transform_load_kind x)
  | None, None => unreachable
  end.

Definition base (v : t) : R OpIndex :=
  match load_ v, load_transform_ v with
  | Some l, _ => mret (load_base l)
  | None, Some x => mret (transform_base x)
  | None, None => unreachable
  end.

Definition index (v : t) : R OpIndex :=
  match load_ v, load_transform_ v with
  | Some l, _ => mret (load_index l)
  | None, Some x => mret (transform_index x)
  | None, None => unreachable
  end.

Definition displacement (kHeapObjectTag : Z) (v : t) : R Z :=
  match load_ v, load_transform_ v with
  | Some l, _ => untagged_displacement kHeapObjectTag (load_kind l) (load_offset l)
  | None, Some x =>
      dcheck (negb (tagged_base (transform_load_kind x)));;
      mret (transform_offset x)
  | None, None => unreachable
  end.

Definition element_size_log2 (v : t) : R Z :=
  match load_ v, load_transform_ v with
  | Some l, _ => mret (load_element_size_log2 l)
  | None, Some _ => mret 0
  | None, None => unreachable
  end.

Definition is_atomic (v : t) : R bool :=
  k ← kind v; mret (is_atomic k).

(** The result and the value of [*traps_on_null] afterwards. *)
Definition is_protected (v : t) (traps_on_null : bool) : R (bool * bool) :=
  k ← kind v;
  if with_trap_handler k then
    match load_ v, load_transform_ v with
    | Some l, _ => mret (true, trap_on_null (load_kind l))
    | None, Some x =>
        dcheck true;;
        dcheck (negb (trap_on_null (transform_load_kind x)));;
        mret (true, false)
    | None, None => unreachable
    end
  else mret (false, traps_on_null).

End LoadView.

(** [InstructionSelector::load_view], given the operation of the node. *)
Definition load_view (op : TsOperation) (node : OpIndex) : R LoadView.t :=
  dcheck (is_load op);;
  LoadView.make op node.

Module StoreView.

Inductive AtomicMemoryOrder := kSeqCst.
Inductive MemoryAccessKind := kNormal | kProtectedByTrapHandler.

Record t := { node_ : OpIndex; op_ : StoreOp }.

Definition memory_order (v : t) : option AtomicMemoryOrder :=
  if is_atomic (store_kind (op_ v)) then Some kSeqCst else None.

Definition access_kind (v : t) : MemoryAccessKind :=
  if with_trap_handler (store_kind (op_ v))
  then kProtectedByTrapHandler else kNormal.

Definition is_atomic (v : t) : bool := is_atomic (store_kind (op_ v)).

Definition base (v : t) : OpIndex := store_base (op_ v).
Definition index (v : t) : OpIndex := store_index (op_ v).
Definition value (v : t) : OpIndex := store_value (op_ v).

Definition displacement (kHeapObjectTag : Z) (v : t) : R Z :=
  untagged_displacement kHeapObjectTag (store_kind (op_ v)) (store_offset (op_ v)).

Definition element_size_log2 (v : t) : Z := store_element_size_log2 (op_ v).

Definition is_store_trap_on_null (v : t) : bool :=
  with_trap_handler (store_kind (op_ v)) && trap_on_null (store_kind (op_ v)).

End StoreView.

(** ** Heap object addresses (objects/heap-object.h) *)

Module HeapObject.
Section Addresses.
(** The width of [Address], [kHeapObjectTag], and the test of
    [DCHECK_TAG_ALIGNED]; all of common/globals.h. *)
Variable address_bits : Z.
Variable kHeapObjectTag : Z.
Variable tag_aligned : Z -> bool.

(** The value an [Address] holds. *)
Definition address_wrap (z : Z) : Z := z mod 2 ^ address_bits.

(** [HeapObjectLayout::ptr], from the object's own address. *)
Definition layout_ptr (this : Z) : Z := address_wrap (this + kHeapObjectTag).

(** A [HeapObject] and a [Tagged<HeapObject>] hold the tagged pointer. *)
Definition FromAddress (address : Z) : M Z :=
  DCHECK (tag_aligned address);;
  mret (address_wrap (address + kHeapObjectTag)).

Definition address (ptr : Z) : Z := address_wrap (ptr - kHeapObjectTag).

Definition field_address (ptr : Z) (offset : Z) : Z :=
  address_wrap (address_wrap (ptr + offset) - kHeapObjectTag).
End Addresses.
End HeapObject.

(** ** Further sample values *)

Definition sample_select : FlagsContinuation :=
  {| mode_ := kFlags_select; condition_ := kSignedLessThan;
     final_condition_ := kEqual; num_conditional_compares_ := 0%N;
     compares_ := sample_chain; reason_ := 0%N; node_id_ := 0%N;
     feedback_ := 0%N; frame_state_or_result_ := Op 4; true_block_ := None;
     false_block_ := None; trap_id_ := 0%N; true_value_ := Op 5;
     false_value_ := Op 6; hint_ := BranchHint.kNone |}.

Definition sample_kind : MemoryAccessOpKind :=
  {| tagged_base := true; is_atomic := false; with_trap_handler := true;
     trap_on_null := true |}.

Definition sample_load : LoadOp :=
  {| load_base := Op 1; load_index := Invalid; load_offset := 12;
     load_element_size_log2 := 0; load_kind := sample_kind |}.

Definition sample_store : StoreOp :=
  {| store_base := Op 1; store_index := Invalid; store_value := Op 2;
     store_offset := 12; store_element_size_log2 := 0;
     store_kind := sample_kind |}.

Definition sample_store_view : StoreView.t :=
  {| StoreView.node_ := Op 3; StoreView.op_ := sample_store |}.

Definition sample_one_input_op : Simd128ShuffleOp :=
  {| inputs := [Op 3]; shuffle := [] |}.

(** Alignment of an address to the two tag bits. *)
Definition sample_tag_aligned (a : Z) : bool := Z.land a 3 =? 0.

(** ** Definitions for the revised statements *)

(** The two continuations agree on the mode and on every payload member;
    only [condition_] may differ. *)
Definition same_mode_and_payload (k k' : FlagsContinuation) : Prop :=
  mode_ k' = mode_ k
  /\ final_condition_ k' = final_condition_ k
  /\ num_conditional_compares_ k' = num_conditional_compares_ k
  /\ compares_ k' = compares_ k
  /\ reason_ k' = reason_ k
  /\ node_id_ k' = node_id_ k
  /\ feedback_ k' = feedback_ k
  /\ frame_state_or_result_ k' = frame_state_or_result_ k
  /\ true_block_ k' = true_block_ k
  /\ false_block_ k' = false_block_ k
  /\ trap_id_ k' = trap_id_ k
  /\ true_value_ k' = true_value_ k
  /\ false_value_ k' = false_value_ k
  /\ hint_ k' = hint_ k.

(** A conditional branch whose condition, the compare condition of its first
    step, is kEqual, and a continuation of mode None over storage that holds
    kEqual. *)
Definition equal_compare : ConditionalCompare :=
  {| code := 7; compare_condition := kEqual; default_flags := kNotEqual;
     lhs := Op 1; rhs := Op 2 |}.

Definition chain_branch_on_equal : FlagsContinuation :=
  {| mode_ := kFlags_conditional_branch; condition_ := kEqual;
     final_condition_ := kNotEqual; num_conditional_compares_ := 1%N;
     compares_ := [# equal_compare; sample_compare; sample_compare; sample_compare];
     reason_ := 0%N; node_id_ := 0%N; feedback_ := 0%N;
     frame_state_or_result_ := Invalid; true_block_ := Some 1%nat;
     false_block_ := Some 2%nat; trap_id_ := 0%N; true_value_ := Invalid;
     false_value_ := Invalid; hint_ := BranchHint.kNone |}.

Definition none_on_equal : FlagsContinuation :=
  {| mode_ := kFlags_none; condition_ := kEqual;
     final_condition_ := kEqual; num_conditional_compares_ := 0%N;
     compares_ := sample_chain; reason_ := 0%N; node_id_ := 0%N;
     feedback_ := 0%N; frame_state_or_result_ := Invalid; true_block_ := None;
     false_block_ := None; trap_id_ := 0%N; true_value_ := Invalid;
     false_value_ := Invalid; hint_ := BranchHint.kNone |}.

(** *** The builder of a conditional-compare chain *)

(** Modelled from the spec: the code that collects the steps of a
    conditional-compare chain and makes the continuation is in the
    architecture-specific selector, which is not among the sources.  A chain
    is an ordered sequence of at most 4 steps; attempting a 5th forces a
    flush to sequential, unfused compares rather than a silent truncation.
    [Chaining] holds the steps of a chain that can still be fused,
    [Flushed] the steps that have to be emitted one after the other. *)
Inductive CompareChain :=
  | Chaining (steps : list ConditionalCompare)
  | Flushed (steps : list ConditionalCompare).

Definition AddConditionalCompare (chain : CompareChain) (step : ConditionalCompare)
    : CompareChain :=
  match chain with
  | Chaining steps =>
      if bool_decide (length steps < kMaxCompareChainSize)%nat
      then Chaining (steps ++ [step])
      else Flushed (steps ++ [step])
  | Flushed steps => Flushed (steps ++ [step])
  end.

Definition BuildCompareChain (steps : list ConditionalCompare) : CompareChain :=
  fold_left AddConditionalCompare steps (Chaining []).

(** The array of a chain: the steps from slot 0 on, the other slots as they
    are in the storage. *)
Definition chain_array (storage : compare_chain_t) (steps : list ConditionalCompare)
    : compare_chain_t :=
  fun_to_vec (fun i : fin kMaxCompareChainSize =>
                default (storage !!! i) (steps !! fin_to_nat i)).

(** What the selector emits for the chain: one fused instruction with the
    continuation, or the compares in sequence. *)
Inductive ChainLowering :=
  | Fused (cont : FlagsContinuation)
  | SequentialCompares (steps : list ConditionalCompare).

Definition LowerBranchChain (raw : FlagsContinuation) (chain : CompareChain)
    (branch_condition : FlagsCondition) (true_block false_block : BlockPtr)
    : M ChainLowering :=
  match chain with
  | Chaining steps =>
      cont ← ForConditionalBranch raw (chain_array (compares_ raw) steps)
               (N.of_nat (length steps)) branch_condition true_block false_block;
      mret (Fused cont)
  | Flushed steps => mret (SequentialCompares steps)
  end.

Definition LowerTrapChain (raw : FlagsContinuation) (chain : CompareChain)
    (condition : FlagsCondition) (trap_id : TrapId) : M ChainLowering :=
  match chain with
  | Chaining steps =>
      cont ← ForConditionalTrap raw (chain_array (compares_ raw) steps)
               (N.of_nat (length steps)) condition trap_id;
      mret (Fused cont)
  | Flushed steps => mret (SequentialCompares steps)
  end.

(** A load, a store and a user of the load, in one block. *)
Definition one_store_selector : InstructionSelector :=
  {| schedule_ := [pure_op 0 []; store_op 0 []; pure_op 0 [Op 0]];
     defined_ := ∅; used_ := {[ 0%nat ]} |}.

(** ** Flags continuation: proofs *)

Ltac run_checks :=
  unfold mbind, mret, M_bind, M_ret, DCHECK_NOT_NULL, DCHECK; simpl.

Lemma set_condition_same (k : FlagsContinuation) :
  set_condition k (condition_ k) = k.
Proof. destruct k; reflexivity. Qed.

Lemma set_condition_twice (k : FlagsContinuation) (c c' : FlagsCondition) :
  set_condition (set_condition k c) c' = set_condition k c'.
Proof. reflexivity. Qed.

Lemma NegateFlagsCondition_involutive (c : FlagsCondition) :
  NegateFlagsCondition (NegateFlagsCondition c) = c.
Proof. destruct c; reflexivity. Qed.

Lemma Negate_ok (k : FlagsContinuation) (b : Build) :
  IsNone k = false -> is_chain k = false ->
  Negate k b = Ok (set_condition k (NegateFlagsCondition (condition_ k))).
Proof.
  unfold is_chain, Negate. intros Hn Hc.
  apply orb_false_elim in Hc as [Hb Ht].
  run_checks. rewrite Hn, Hb, Ht. destruct b; reflexivity.
Qed.

(** C2.  In a mode that is neither None nor a chain mode, [Negate] returns,
    and applying it twice gives the continuation back, with its condition
    restored; so the negation of the negation of every condition is the
    condition. *)
Theorem Negate_Negate (k : FlagsContinuation) (b : Build) :
  IsNone k = false ->
  IsConditionalBranch k = false ->
  IsConditionalTrap k = false ->
  (exists k1, Negate k b = Ok k1
              /\ condition_ k1 = NegateFlagsCondition (condition_ k)
              /\ Negate k1 b = Ok k)
  /\ (forall c, NegateFlagsCondition (NegateFlagsCondition c) = c).
Proof.
  intros Hn Hb Ht.
  assert (Hc : is_chain k = false) by (unfold is_chain; rewrite Hb, Ht; reflexivity).
  split; [| apply NegateFlagsCondition_involutive].
  exists (set_condition k (NegateFlagsCondition (condition_ k))).
  split; [apply Negate_ok; assumption |].
  split; [reflexivity |].
  rewrite Negate_ok by assumption. simpl.
  rewrite NegateFlagsCondition_involutive, set_condition_twice.
  f_equal. apply set_condition_same.
Qed.

Lemma Negate_Negate_witness :
  (exists k1, Negate sample_branch Checked = Ok k1
              /\ condition_ k1 = NegateFlagsCondition (condition_ sample_branch)
              /\ Negate k1 Checked = Ok sample_branch)
  /\ (forall c, NegateFlagsCondition (NegateFlagsCondition c) = c).
Proof. apply (Negate_Negate sample_branch Checked); reflexivity. Defined.

(** On the sample branch, whose condition is kEqual: negation, the guarded
    overwrite, and the accessors of its own and of another mode. *)
Example sample_branch_runs :
  Negate sample_branch Checked = Ok (set_condition sample_branch kNotEqual)
  /\ OverwriteAndNegateIfEqual sample_branch kSignedLessThan Checked
     = Ok (set_condition sample_branch kSignedGreaterThanOrEqual)
  /\ OverwriteAndNegateIfEqual (set_condition sample_branch kUnsignedLessThan)
       kSignedLessThan Checked = DCheckFailed
  /\ OverwriteUnsignedIfSigned (set_condition sample_branch kSignedGreaterThan)
       Checked = Ok (set_condition sample_branch kUnsignedGreaterThan)
  /\ true_block sample_branch Checked = Ok (Some 1%nat)
  /\ trap_id sample_branch Checked = DCheckFailed
  /\ trap_id sample_branch Unchecked = Ok 0%N
  /\ Negate oversized_chain_branch Checked = DCheckFailed
  /\ ForDeoptimize sample_raw kNotEqual 3%N 8%N 0%N Invalid Checked = DCheckFailed
  /\ ForDeoptimizeForTesting sample_raw kNotEqual 3%N 8%N 0%N Invalid Checked
     = Ok (set_condition
             {| mode_ := kFlags_deoptimize; condition_ := kEqual;
                final_condition_ := kEqual; num_conditional_compares_ := 0%N;
                compares_ := sample_chain; reason_ := 3%N; node_id_ := 8%N;
                feedback_ := 0%N; frame_state_or_result_ := Invalid;
                true_block_ := None; false_block_ := None; trap_id_ := 0%N;
                true_value_ := Invalid; false_value_ := Invalid;
                hint_ := BranchHint.kNone |} kNotEqual).
Proof. repeat split. Qed.

Lemma chain_mode_cases (k : FlagsContinuation) :
  is_chain k = true ->
  mode_ k = kFlags_conditional_branch \/ mode_ k = kFlags_conditional_trap.
Proof.
  unfold is_chain, IsConditionalBranch, IsConditionalTrap. intros H.
  apply orb_true_iff in H as [H | H]; apply bool_decide_eq_true in H; auto.
Qed.

(** C5.  In a checked build every payload accessor gives its member in the
    modes it belongs to and fails its assertion in every other mode, and each
    of the five condition mutators fails its assertion in a chain mode.  In
    mode None, which has no condition, [condition], [Negate] and [Commute]
    fail theirs as well. *)
Theorem payload_access_is_checked (k : FlagsContinuation) (c : FlagsCondition) :
  (reason k Checked = checked_read [kFlags_deoptimize] reason_ k
   /\ node_id k Checked = checked_read [kFlags_deoptimize] node_id_ k
   /\ feedback k Checked = checked_read [kFlags_deoptimize] feedback_ k
   /\ frame_state k Checked
      = checked_read [kFlags_deoptimize] frame_state_or_result_ k
   /\ result k Checked
      = checked_read [kFlags_set; kFlags_select] frame_state_or_result_ k
   /\ trap_id k Checked
      = checked_read [kFlags_trap; kFlags_conditional_trap] trap_id_ k
   /\ true_block k Checked
      = checked_read [kFlags_branch; kFlags_conditional_branch] true_block_ k
   /\ false_block k Checked
      = checked_read [kFlags_branch; kFlags_conditional_branch] false_block_ k
   /\ hint k Checked = checked_read [kFlags_branch] hint_ k
   /\ true_value k Checked = checked_read [kFlags_select] true_value_ k
   /\ false_value k Checked = checked_read [kFlags_select] false_value_ k
   /\ compares k Checked
      = checked_read [kFlags_conditional_trap; kFlags_conditional_branch]
          compares_ k
   /\ num_conditional_compares k Checked
      = checked_read [kFlags_conditional_trap; kFlags_conditional_branch]
          num_conditional_compares_ k
   /\ final_condition k Checked
      = checked_read [kFlags_conditional_trap; kFlags_conditional_branch]
          final_condition_ k)
  /\ (is_chain k = true ->
      Negate k Checked = DCheckFailed
      /\ Commute k Checked = DCheckFailed
      /\ Overwrite k c Checked = DCheckFailed
      /\ OverwriteAndNegateIfEqual k c Checked = DCheckFailed
      /\ OverwriteUnsignedIfSigned k Checked = DCheckFailed)
  /\ (IsNone k = true ->
      condition k Checked = DCheckFailed
      /\ Negate k Checked = DCheckFailed
      /\ Commute k Checked = DCheckFailed).
Proof.
  split; [| split].
  - destruct k as [m ? ? ? ? ? ? ? ? ? ? ? ? ? ?].
    destruct m; repeat split; reflexivity.
  - intros Hc. apply chain_mode_cases in Hc.
    destruct k as [m cond ? ? ? ? ? ? ? ? ? ? ? ? ?]. simpl in Hc.
    destruct Hc as [-> | ->]; repeat split; try reflexivity;
      destruct cond; reflexivity.
  - intros Hn. apply bool_decide_eq_true in Hn.
    destruct k as [m ? ? ? ? ? ? ? ? ? ? ? ? ? ?]. simpl in Hn. subst m.
    repeat split; reflexivity.
Qed.

(** The value [OverwriteAndNegateIfEqual] leaves in [condition_]. *)
Lemma OverwriteAndNegateIfEqual_unchecked (k : FlagsContinuation) (c : FlagsCondition) :
  OverwriteAndNegateIfEqual k c Unchecked
  = Ok (set_condition k (if bool_decide (condition_ k = kEqual)
                         then NegateFlagsCondition c else c)).
Proof.
  unfold OverwriteAndNegateIfEqual, Negate. run_checks.
  destruct (bool_decide (condition_ k = kEqual)); reflexivity.
Qed.

Lemma is_chain_false (k : FlagsContinuation) :
  is_chain k = false ->
  IsConditionalBranch k = false /\ IsConditionalTrap k = false.
Proof. unfold is_chain. apply orb_false_elim. Qed.

(** C6, as the code has it.  [OverwriteAndNegateIfEqual] asserts that the
    current condition is kEqual or kNotEqual, then that the mode is not a
    chain mode, and, when the condition was kEqual, [Negate] asserts that the
    mode is not None.  When these hold the call returns, and the condition of
    the continuation is then the given one if the original was kNotEqual and
    the negation of the given one if the original was kEqual; the mode and
    the payload are unchanged.  When one of them fails, a checked build
    aborts. *)
Theorem OverwriteAndNegateIfEqual_spec (k : FlagsContinuation) (c : FlagsCondition) :
  (condition_ k <> kEqual -> condition_ k <> kNotEqual ->
   OverwriteAndNegateIfEqual k c Checked = DCheckFailed)
  /\ (is_chain k = true ->
      OverwriteAndNegateIfEqual k c Checked = DCheckFailed)
  /\ (IsNone k = true -> condition_ k = kEqual ->
      OverwriteAndNegateIfEqual k c Checked = DCheckFailed)
  /\ (condition_ k = kNotEqual -> is_chain k = false ->
      exists k', OverwriteAndNegateIfEqual k c Checked = Ok k'
        /\ condition_ k' = c
        /\ same_mode_and_payload k k')
  /\ (condition_ k = kEqual -> is_chain k = false -> IsNone k = false ->
      exists k', OverwriteAndNegateIfEqual k c Checked = Ok k'
        /\ condition_ k' = NegateFlagsCondition c
        /\ same_mode_and_payload k k')
  /\ (condition_ k = kNotEqual ->
      exists k', OverwriteAndNegateIfEqual k c Unchecked = Ok k'
        /\ condition_ k' = c
        /\ same_mode_and_payload k k')
  /\ (condition_ k = kEqual ->
      exists k', OverwriteAndNegateIfEqual k c Unchecked = Ok k'
        /\ condition_ k' = NegateFlagsCondition c
        /\ same_mode_and_payload k k').
Proof.
  pose proof (OverwriteAndNegateIfEqual_unchecked k c) as Hun.
  split; [| split; [| split; [| split; [| split; [| split]]]]].
  - intros H1 H2. unfold OverwriteAndNegateIfEqual. run_checks.
    rewrite !bool_decide_eq_false_2 by assumption. reflexivity.
  - intros Hc. apply chain_mode_cases in Hc.
    destruct k as [m cond ? ? ? ? ? ? ? ? ? ? ? ? ?]. simpl in Hc.
    destruct Hc as [-> | ->]; destruct cond; reflexivity.
  - intros Hn Hq. apply bool_decide_eq_true in Hn.
    destruct k as [m cond ? ? ? ? ? ? ? ? ? ? ? ? ?]. simpl in Hn, Hq.
    subst m cond. reflexivity.
  - intros Hq Hc. exists (set_condition k c).
    split; [| split; [reflexivity | unfold same_mode_and_payload; repeat split]].
    apply is_chain_false in Hc as [Hb Ht].
    unfold OverwriteAndNegateIfEqual. run_checks. rewrite Hq, Hb, Ht. reflexivity.
  - intros Hq Hc Hn. exists (set_condition k (NegateFlagsCondition c)).
    split; [| split; [reflexivity | unfold same_mode_and_payload; repeat split]].
    apply is_chain_false in Hc as [Hb Ht].
    unfold OverwriteAndNegateIfEqual, Negate. run_checks.
    unfold IsNone, IsConditionalBranch, IsConditionalTrap in *. simpl.
    rewrite Hq, Hn, Hb, Ht. reflexivity.
  - intros Hq. exists (set_condition k c).
    split; [| split; [reflexivity | unfold same_mode_and_payload; repeat split]].
    rewrite Hun, Hq. reflexivity.
  - intros Hq. exists (set_condition k (NegateFlagsCondition c)).
    split; [| split; [reflexivity | unfold same_mode_and_payload; repeat split]].
    rewrite Hun, Hq. reflexivity.
Qed.

(** C6, the claim as stated, fails in a checked build: with the condition
    kEqual the call aborts on a conditional branch and on a continuation of
    mode None, although the stated precondition holds. *)
Lemma OverwriteAndNegateIfEqual_asserts_mode :
  condition_ chain_branch_on_equal = kEqual
  /\ OverwriteAndNegateIfEqual chain_branch_on_equal kSignedLessThan Checked
     = DCheckFailed
  /\ condition_ none_on_equal = kEqual
  /\ OverwriteAndNegateIfEqual none_on_equal kSignedLessThan Checked
     = DCheckFailed
  /\ ~ (forall k c,
         condition_ k = kEqual \/ condition_ k = kNotEqual ->
         exists k', OverwriteAndNegateIfEqual k c Checked = Ok k'
           /\ condition_ k'
              = if bool_decide (condition_ k = kNotEqual)
                then c else NegateFlagsCondition c).
Proof.
  repeat split.
  intros H.
  destruct (H chain_branch_on_equal kSignedLessThan (or_introl eq_refl))
    as (k' & Hk & _).
  discriminate Hk.
Qed.

(** C7, as the code has it.  [OverwriteUnsignedIfSigned] asserts that the
    mode is not a chain mode.  Outside the chain modes, and in every mode
    without checks, it returns, and the condition of the continuation is
    then the unsigned counterpart of each of the four signed comparisons and
    the original condition for every other one; the mode and the payload are
    unchanged.  In a chain mode a checked build aborts. *)
Theorem OverwriteUnsignedIfSigned_spec (k : FlagsContinuation) (b : Build) :
  (is_chain k = true -> OverwriteUnsignedIfSigned k Checked = DCheckFailed)
  /\ (is_chain k = false \/ b = Unchecked ->
      exists k', OverwriteUnsignedIfSigned k b = Ok k'
        /\ (condition_ k = kSignedLessThan ->
            condition_ k' = kUnsignedLessThan)
        /\ (condition_ k = kSignedLessThanOrEqual ->
            condition_ k' = kUnsignedLessThanOrEqual)
        /\ (condition_ k = kSignedGreaterThan ->
            condition_ k' = kUnsignedGreaterThan)
        /\ (condition_ k = kSignedGreaterThanOrEqual ->
            condition_ k' = kUnsignedGreaterThanOrEqual)
        /\ (condition_ k <> kSignedLessThan ->
            condition_ k <> kSignedLessThanOrEqual ->
            condition_ k <> kSignedGreaterThan ->
            condition_ k <> kSignedGreaterThanOrEqual ->
            condition_ k' = condition_ k)
        /\ same_mode_and_payload k k').
Proof.
  split.
  - intros Hc. apply chain_mode_cases in Hc.
    destruct k as [m cond ? ? ? ? ? ? ? ? ? ? ? ? ?]. simpl in Hc.
    destruct Hc as [-> | ->]; reflexivity.
  - intros Hok.
    assert (Hrun : OverwriteUnsignedIfSigned k b
                   = OverwriteUnsignedIfSigned k Unchecked).
    { destruct Hok as [Hc | ->]; [| reflexivity].
      apply is_chain_false in Hc as [Hb Ht].
      unfold OverwriteUnsignedIfSigned. run_checks. rewrite Hb, Ht.
      destruct b; reflexivity. }
    rewrite Hrun. unfold OverwriteUnsignedIfSigned. run_checks.
    unfold same_mode_and_payload.
    destruct (condition_ k) eqn:Hcond;
      (eexists; split; [reflexivity |]); simpl; rewrite ?Hcond;
      repeat split; intros; try discriminate; try reflexivity;
      exfalso; auto.
Qed.

(** C7, the claim as stated, fails in a checked build: on a conditional
    branch whose condition is kSignedLessThan the call aborts and replaces
    nothing. *)
Lemma OverwriteUnsignedIfSigned_asserts_mode :
  condition_ oversized_chain_branch = kSignedLessThan
  /\ OverwriteUnsignedIfSigned oversized_chain_branch Checked = DCheckFailed
  /\ ~ (forall k,
         condition_ k = kSignedLessThan ->
         exists k', OverwriteUnsignedIfSigned k Checked = Ok k'
           /\ condition_ k' = kUnsignedLessThan).
Proof.
  repeat split.
  intros H. destruct (H oversized_chain_branch eq_refl) as (k' & Hk & _).
  discriminate Hk.
Qed.

(** C8.  In a checked build [ForDeoptimize] fails its assertion on every
    invalid frame state, so a continuation it returns has a valid frame
    state, the one it was given; on a valid frame state it returns. *)
Theorem ForDeoptimize_requires_frame_state (raw : FlagsContinuation)
    (cond : FlagsCondition) (why : DeoptimizeReason) (id : N)
    (fb : FeedbackSource) (fs : OpIndex) :
  (valid fs = false ->
   ForDeoptimize raw cond why id fb fs Checked = DCheckFailed)
  /\ (forall k, ForDeoptimize raw cond why id fb fs Checked = Ok k ->
      valid (frame_state_or_result_ k) = true
      /\ IsDeoptimize k = true
      /\ frame_state k Checked = Ok fs)
  /\ (valid fs = true ->
      exists k, ForDeoptimize raw cond why id fb fs Checked = Ok k).
Proof.
  unfold ForDeoptimize, FlagsContinuation_deoptimize. run_checks.
  destruct (valid fs) eqn:Hv.
  - split; [discriminate |]. split.
    + intros k [= <-]. simpl. rewrite Hv. repeat split.
    + intros _. eexists. reflexivity.
  - split; [reflexivity |]. split; [discriminate | discriminate].
Qed.

Lemma chain_capacity (chain : compare_chain_t) :
  length (vec_to_list chain) = kMaxCompareChainSize.
Proof. apply length_vec_to_list. Qed.

Lemma fold_flushed (steps acc : list ConditionalCompare) :
  fold_left AddConditionalCompare steps (Flushed acc) = Flushed (acc ++ steps).
Proof.
  revert acc. induction steps as [| step steps IH]; intros acc; simpl.
  - rewrite app_nil_r. reflexivity.
  - rewrite IH, <- app_assoc. reflexivity.
Qed.

Lemma fold_chaining (steps acc : list ConditionalCompare) :
  (length acc <= kMaxCompareChainSize)%nat ->
  fold_left AddConditionalCompare steps (Chaining acc)
  = if bool_decide (length acc + length steps <= kMaxCompareChainSize)%nat
    then Chaining (acc ++ steps) else Flushed (acc ++ steps).
Proof.
  revert acc. induction steps as [| step steps IH]; intros acc Hacc; simpl.
  - rewrite app_nil_r, bool_decide_eq_true_2 by lia. reflexivity.
  - destruct (decide (length acc < kMaxCompareChainSize)%nat) as [Hlt | Hge].
    + rewrite bool_decide_eq_true_2 by assumption.
      rewrite IH by (rewrite length_app; simpl; lia).
      rewrite length_app, <- app_assoc. simpl.
      replace (length acc + 1 + length steps)%nat
        with (length acc + S (length steps))%nat by lia.
      reflexivity.
    + rewrite bool_decide_eq_false_2 by assumption.
      rewrite fold_flushed, <- app_assoc. simpl.
      rewrite bool_decide_eq_false_2 by lia. reflexivity.
Qed.

(** A chain is fused exactly when it has at most 4 steps; a longer one is
    flushed with every step kept, in order. *)
Lemma BuildCompareChain_spec (steps : list ConditionalCompare) :
  BuildCompareChain steps
  = if bool_decide (length steps <= kMaxCompareChainSize)%nat
    then Chaining steps else Flushed steps.
Proof.
  unfold BuildCompareChain.
  rewrite fold_chaining by (simpl; unfold kMaxCompareChainSize; lia).
  reflexivity.
Qed.

Lemma chain_array_lookup (storage : compare_chain_t)
    (steps : list ConditionalCompare) (i : fin kMaxCompareChainSize)
    (step : ConditionalCompare) :
  steps !! fin_to_nat i = Some step -> chain_array storage steps !!! i = step.
Proof.
  intros H. unfold chain_array.
  etransitivity; [apply lookup_fun_to_vec |]. simpl. rewrite H. reflexivity.
Qed.

(** C3, as the code has it.  The chain array has room for exactly
    [kMaxCompareChainSize] = 4 steps.  The continuation does not compare the
    count with that capacity: [ForConditionalBranch] and [ForConditionalTrap]
    store the count they are given and [num_conditional_compares] hands it
    back.  A continuation that the chain builder makes has a count of at
    most 4: a chain of up to 4 steps is fused, its count the number of its
    steps and its array holding them in order, and the attempt of a 5th step
    flushes the chain to sequential compares, with every step kept. *)
Theorem compare_chain_capacity_and_count (raw : FlagsContinuation)
    (chain : compare_chain_t) (count : N) (cond : FlagsCondition)
    (tb fb : nat) (trap : TrapId) (steps : list ConditionalCompare) (b : Build) :
  kMaxCompareChainSize = 4%nat
  /\ length (vec_to_list chain) = kMaxCompareChainSize
  /\ (exists k,
        ForConditionalBranch raw chain count cond (Some tb) (Some fb) b = Ok k
        /\ IsConditionalBranch k = true
        /\ compares k b = Ok chain
        /\ num_conditional_compares k b = Ok count)
  /\ (exists k,
        ForConditionalTrap raw chain count cond trap b = Ok k
        /\ IsConditionalTrap k = true
        /\ compares k b = Ok chain
        /\ num_conditional_compares k b = Ok count)
  /\ ((length steps <= 4)%nat ->
      exists kb kt,
        LowerBranchChain raw (BuildCompareChain steps) cond (Some tb) (Some fb) b
        = Ok (Fused kb)
        /\ LowerTrapChain raw (BuildCompareChain steps) cond trap b
           = Ok (Fused kt)
        /\ IsConditionalBranch kb = true
        /\ IsConditionalTrap kt = true
        /\ num_conditional_compares kb b = Ok (N.of_nat (length steps))
        /\ num_conditional_compares kt b = Ok (N.of_nat (length steps))
        /\ (N.of_nat (length steps) <= 4)%N
        /\ (forall (i : fin kMaxCompareChainSize) step,
            steps !! fin_to_nat i = Some step ->
            compares_ kb !!! i = step /\ compares_ kt !!! i = step))
  /\ ((4 < length steps)%nat ->
      LowerBranchChain raw (BuildCompareChain steps) cond (Some tb) (Some fb) b
      = Ok (SequentialCompares steps)
      /\ LowerTrapChain raw (BuildCompareChain steps) cond trap b
         = Ok (SequentialCompares steps))
  /\ (forall k,
      LowerBranchChain raw (BuildCompareChain steps) cond (Some tb) (Some fb) b
      = Ok (Fused k)
      \/ LowerTrapChain raw (BuildCompareChain steps) cond trap b = Ok (Fused k) ->
      exists n, num_conditional_compares k b = Ok n /\ (n <= 4)%N).
Proof.
  split; [reflexivity |]. split; [apply chain_capacity |].
  split; [eexists; (split; [destruct b; reflexivity |]);
          repeat split; destruct b; reflexivity |].
  split; [eexists; (split; [destruct b; reflexivity |]);
          repeat split; destruct b; reflexivity |].
  assert (Hbuild : BuildCompareChain steps
                   = if bool_decide (length steps <= 4)%nat
                     then Chaining steps else Flushed steps)
    by apply BuildCompareChain_spec.
  destruct (decide (length steps <= 4)%nat) as [Hle | Hgt].
  - rewrite bool_decide_eq_true_2 in Hbuild by assumption. rewrite Hbuild.
    unfold LowerBranchChain, LowerTrapChain.
    split; [| split].
    + intros _. eexists. eexists.
      split; [destruct b; reflexivity |]. split; [destruct b; reflexivity |].
      split; [reflexivity |]. split; [reflexivity |].
      split; [destruct b; reflexivity |]. split; [destruct b; reflexivity |].
      split; [lia |].
      intros i step Hi. simpl. split; apply chain_array_lookup; assumption.
    + intros Hgt. lia.
    + intros k Hk. exists (N.of_nat (length steps)). split; [| lia].
      destruct Hk as [Hk | Hk]; destruct b; simpl in Hk;
        injection Hk as <-; reflexivity.
  - rewrite bool_decide_eq_false_2 in Hbuild by assumption. rewrite Hbuild.
    split; [| split].
    + intros Hle. lia.
    + intros _. split; reflexivity.
    + intros k [Hk | Hk]; discriminate Hk.
Qed.

(** C3, the claim as stated, fails: a conditional branch made with a count of
    five reports five compares. *)
Lemma compare_chain_count_not_bounded :
  ForConditionalBranch sample_raw sample_chain 5 kNotEqual (Some 1%nat)
    (Some 2%nat) Checked = Ok oversized_chain_branch
  /\ IsConditionalBranch oversized_chain_branch = true
  /\ num_conditional_compares oversized_chain_branch Checked = Ok 5%N
  /\ ~ (forall k n, is_chain k = true ->
         num_conditional_compares k Checked = Ok n ->
         (n <= N.of_nat kMaxCompareChainSize)%N).
Proof.
  repeat split.
  intros H. specialize (H oversized_chain_branch 5%N eq_refl eq_refl).
  vm_compute in H. apply H. reflexivity.
Qed.

(** ** Opcode encoding: proofs *)

Lemma fits_high_bits (f : BitField) (v i : Z) :
  fits f v -> kSize f <= i -> Z.testbit v i = false.
Proof.
  intros [Hlo Hhi] Hi.
  destruct (Z.eq_dec v 0) as [-> | Hnz]; [apply Z.bits_0 |].
  destruct (Z.lt_ge_cases (kSize f) 0) as [Hneg | Hsz].
  - rewrite Z.pow_neg_r in Hhi by assumption. lia.
  - apply Z.bits_above_log2; [assumption |].
    apply Z.lt_le_trans with (kSize f); [| assumption].
    apply Z.log2_lt_pow2; lia.
Qed.

Lemma testbit_encode (f : BitField) (v i : Z) :
  0 <= i -> Z.testbit (encode f v) i = Z.testbit v (i - kShift f).
Proof. intros Hi. unfold encode. apply Z.shiftl_spec. assumption. Qed.

Lemma testbit_decode (f : BitField) (w i : Z) :
  field_wf f -> 0 <= i ->
  Z.testbit (decode f w) i = Z.testbit w (i + kShift f) && (i <? kSize f).
Proof.
  intros [Hs Hz] Hi. unfold decode, kMask.
  rewrite Z.shiftr_spec, Z.land_spec, Z.shiftl_spec by lia.
  replace (i + kShift f - kShift f) with i by lia.
  rewrite Z.testbit_ones by assumption.
  replace (0 <=? i) with true by (symmetry; apply Z.leb_le; assumption).
  reflexivity.
Qed.

(** A value encoded into one field shows no bit in a disjoint field. *)
Lemma encode_outside (f g : BitField) (v i : Z) :
  field_wf f -> field_wf g -> fits g v -> fields_disjoint f g ->
  0 <= i -> i < kSize f ->
  Z.testbit (encode g v) (i + kShift f) = false.
Proof.
  intros [Hfs Hfz] [Hgs Hgz] Hfit Hdis Hi Hlt.
  rewrite testbit_encode by lia.
  destruct Hdis as [Hd | Hd].
  - apply Z.testbit_neg_r. lia.
  - apply (fits_high_bits g); [assumption | lia].
Qed.

Lemma decode_encode_lor (f : BitField) (w v : Z) :
  field_wf f -> fits f v ->
  decode f (Z.lor w (encode f v)) = Z.lor (decode f w) v.
Proof.
  intros Hwf Hfit. apply Z.bits_inj'. intros i Hi.
  rewrite Z.lor_spec, !testbit_decode, Z.lor_spec, testbit_encode
    by (assumption || (destruct Hwf; lia)).
  replace (i + kShift f - kShift f) with i by lia.
  destruct (i <? kSize f) eqn:Hlt.
  - rewrite !andb_true_r. reflexivity.
  - rewrite !andb_false_r. simpl. symmetry.
    apply (fits_high_bits f); [assumption |]. apply Z.ltb_ge. assumption.
Qed.

Lemma decode_other_lor (f g : BitField) (w v : Z) :
  field_wf f -> field_wf g -> fits g v -> fields_disjoint f g ->
  decode f (Z.lor w (encode g v)) = decode f w.
Proof.
  intros Hf Hg Hfit Hdis. apply Z.bits_inj'. intros i Hi.
  rewrite !testbit_decode, Z.lor_spec by assumption.
  destruct (i <? kSize f) eqn:Hlt.
  - rewrite (encode_outside f g) by (try assumption; apply Z.ltb_lt; assumption).
    rewrite orb_false_r. reflexivity.
  - rewrite !andb_false_r. reflexivity.
Qed.

Lemma fields_disjoint_sym (f g : BitField) :
  fields_disjoint f g -> fields_disjoint g f.
Proof. unfold fields_disjoint. tauto. Qed.

Lemma testbit_encode_outside_field (f : BitField) (v i : Z) :
  field_wf f -> fits f v -> 0 <= i -> ~ in_field f i ->
  Z.testbit (encode f v) i = false.
Proof.
  intros [Hs Hz] Hfit Hi Hout. rewrite testbit_encode by assumption.
  unfold in_field in Hout.
  destruct (Z.lt_ge_cases i (kShift f)).
  - apply Z.testbit_neg_r. lia.
  - apply (fits_high_bits f); [assumption | lia].
Qed.

Section EncodeProofs.
Variables FlagsModeField FlagsConditionField : BitField.
Variable FlagsMode_value : FlagsMode -> Z.
Variable FlagsCondition_value : FlagsCondition -> Z.

Hypothesis mode_field_wf : field_wf FlagsModeField.
Hypothesis condition_field_wf : field_wf FlagsConditionField.
Hypothesis fields_apart : fields_disjoint FlagsModeField FlagsConditionField.
Hypothesis mode_fits : forall m, fits FlagsModeField (FlagsMode_value m).
Hypothesis condition_fits :
  forall c, fits FlagsConditionField (FlagsCondition_value c).

Local Abbreviation Encode' :=
  (Encode FlagsModeField FlagsConditionField FlagsMode_value FlagsCondition_value).

(** C4.  [Encode] ors the mode, moved to the mode field, into the opcode,
    and the condition, moved to the condition field, if and only if the
    mode is not None.  When the two fields are apart and the enumerators
    fit them, the mode field of the result is the opcode's mode field or-ed
    with the mode, the condition field is the opcode's condition field
    or-ed with the condition in a mode other than None and the opcode's
    condition field as it was for None, and every bit outside the two
    fields is the opcode's. *)
Theorem Encode_packs_mode_and_condition (k : FlagsContinuation) (opcode : InstructionCode) :
  Encode' k opcode
  = (if IsNone k
     then Z.lor opcode (encode FlagsModeField (FlagsMode_value (mode_ k)))
     else Z.lor (Z.lor opcode (encode FlagsModeField (FlagsMode_value (mode_ k))))
            (encode FlagsConditionField (FlagsCondition_value (condition_ k))))
  /\ decode FlagsModeField (Encode' k opcode)
     = Z.lor (decode FlagsModeField opcode) (FlagsMode_value (mode_ k))
  /\ decode FlagsConditionField (Encode' k opcode)
     = (if IsNone k
        then decode FlagsConditionField opcode
        else Z.lor (decode FlagsConditionField opcode)
               (FlagsCondition_value (condition_ k)))
  /\ (forall i, 0 <= i ->
      ~ in_field FlagsModeField i -> ~ in_field FlagsConditionField i ->
      Z.testbit (Encode' k opcode) i = Z.testbit opcode i).
Proof.
  assert (Heq : Encode' k opcode
    = (if IsNone k
       then Z.lor opcode (encode FlagsModeField (FlagsMode_value (mode_ k)))
       else Z.lor (Z.lor opcode (encode FlagsModeField (FlagsMode_value (mode_ k))))
              (encode FlagsConditionField (FlagsCondition_value (condition_ k))))).
  { unfold Encode, IsNone. destruct (mode_ k); reflexivity. }
  split; [exact Heq |]. rewrite Heq. clear Heq.
  pose proof (fields_disjoint_sym _ _ fields_apart) as fields_apart'.
  destruct (IsNone k); repeat split.
  - apply decode_encode_lor; auto.
  - apply decode_other_lor; auto.
  - intros i Hi Hm Hc. rewrite Z.lor_spec, testbit_encode_outside_field by auto.
    apply orb_false_r.
  - rewrite decode_other_lor by auto. apply decode_encode_lor; auto.
  - rewrite decode_encode_lor by auto. rewrite decode_other_lor by auto.
    reflexivity.
  - intros i Hi Hm Hc.
    rewrite !Z.lor_spec, !testbit_encode_outside_field by auto.
    rewrite !orb_false_r. reflexivity.
Qed.
End EncodeProofs.

(** An opcode word stays a 32-bit word: nothing wraps around. *)
Lemma lor_below (a b n : Z) :
  0 <= a < 2 ^ n -> 0 <= b < 2 ^ n -> 0 <= Z.lor a b < 2 ^ n.
Proof.
  intros [Ha Han] [Hb Hbn].
  split; [apply Z.lor_nonneg; split; assumption |].
  destruct (Z.eq_dec a 0) as [-> | Hanz]; [rewrite Z.lor_0_l; assumption |].
  destruct (Z.eq_dec b 0) as [-> | Hbnz]; [rewrite Z.lor_0_r; assumption |].
  assert (Hpos : 0 < Z.lor a b).
  { destruct (Z.eq_dec (Z.lor a b) 0) as [H0 | H0].
    - apply Z.lor_eq_0_iff in H0. lia.
    - pose proof (proj2 (Z.lor_nonneg a b) (conj Ha Hb)). lia. }
  apply Z.log2_lt_pow2; [assumption |].
  rewrite Z.log2_lor by assumption.
  apply Z.max_lub_lt; apply Z.log2_lt_pow2; lia.
Qed.

Lemma encode_below (f : BitField) (v : Z) :
  field_wf f -> fits f v -> kShift f + kSize f <= 32 ->
  0 <= encode f v < 2 ^ 32.
Proof.
  intros [Hs Hz] [Hlo Hhi] Hin. unfold encode. rewrite Z.shiftl_mul_pow2 by assumption.
  split; [apply Z.mul_nonneg_nonneg; [assumption | apply Z.pow_nonneg; lia] |].
  apply Z.lt_le_trans with (2 ^ kSize f * 2 ^ kShift f).
  - apply Z.mul_lt_mono_pos_r; [apply Z.pow_pos_nonneg; lia | assumption].
  - rewrite <- Z.pow_add_r by assumption.
    apply Z.pow_le_mono_r; lia.
Qed.

Lemma Encode_in_word (fm fc : BitField) (mv : FlagsMode -> Z)
    (cv : FlagsCondition -> Z) (k : FlagsContinuation) (opcode : InstructionCode) :
  field_wf fm -> field_wf fc ->
  kShift fm + kSize fm <= 32 -> kShift fc + kSize fc <= 32 ->
  (forall m, fits fm (mv m)) -> (forall c, fits fc (cv c)) ->
  0 <= opcode < 2 ^ 32 ->
  0 <= Encode fm fc mv cv k opcode < 2 ^ 32.
Proof.
  intros Hfm Hfc Hm Hc Hmv Hcv Hop. unfold Encode.
  assert (H1 : 0 <= Z.lor opcode (encode fm (mv (mode_ k))) < 2 ^ 32)
    by (apply lor_below; [assumption | apply encode_below; auto]).
  destruct (bool_decide (mode_ k <> kFlags_none)); [| assumption].
  apply lor_below; [assumption | apply encode_below; auto].
Qed.

Lemma Encode_packs_mode_and_condition_witness :
  Encode sample_FlagsModeField sample_FlagsConditionField
    sample_FlagsMode_value sample_FlagsCondition_value sample_branch 33 = 16417
  /\ decode sample_FlagsModeField
       (Encode sample_FlagsModeField sample_FlagsConditionField
          sample_FlagsMode_value sample_FlagsCondition_value sample_branch 33) = 1
  /\ decode sample_FlagsConditionField
       (Encode sample_FlagsModeField sample_FlagsConditionField
          sample_FlagsMode_value sample_FlagsCondition_value sample_branch 33) = 0.
Proof.
  assert (Hm : field_wf sample_FlagsModeField) by (vm_compute; split; discriminate).
  assert (Hc : field_wf sample_FlagsConditionField) by (vm_compute; split; discriminate).
  assert (Hd : fields_disjoint sample_FlagsModeField sample_FlagsConditionField)
    by (left; vm_compute; discriminate).
  assert (Hfm : forall m, fits sample_FlagsModeField (sample_FlagsMode_value m))
    by (intros []; (vm_compute; split; [discriminate | reflexivity])).
  assert (Hfc : forall c, fits sample_FlagsConditionField (sample_FlagsCondition_value c))
    by (intros []; (vm_compute; split; [discriminate | reflexivity])).
  destruct (Encode_packs_mode_and_condition
              sample_FlagsModeField sample_FlagsConditionField
              sample_FlagsMode_value sample_FlagsCondition_value
              Hm Hc Hd Hfm Hfc sample_branch 33) as (H1 & H2 & H3 & _).
  split; [rewrite H1; reflexivity |].
  split; [rewrite H2; reflexivity | rewrite H3; reflexivity].
Defined.

(** ** Shuffle canonicalisation: proofs *)

Lemma memcpy_exact (dst src : list Byte.byte) (n : nat) :
  (length dst <= n)%nat -> memcpy dst src n = take n src.
Proof.
  intros H. unfold memcpy. rewrite drop_ge by assumption. apply app_nil_r.
Qed.

Lemma view_of_two_inputs (node : OpIndex) (op : Simd128ShuffleOp) :
  input_count op = 2%nat ->
  input_mapping_ (simd_shuffle_view node op) = [0%nat; 1%nat].
Proof. intros H. unfold simd_shuffle_view. simpl. rewrite H. reflexivity. Qed.

Section CanonicalizeShuffleProofs.
Variable Selector : Type.
Variable GetVirtualRegister : OpIndex -> Selector -> Z * Selector.
Variable wasm_CanonicalizeShuffle :
  nat -> nat -> bool -> list Byte.byte -> list Byte.byte * bool * bool.

(** C9.  For a shuffle node of two inputs, the 128-bit [CanonicalizeShuffle]
    copies the raw shuffle bytes into the buffer, hands them to the
    canonicaliser together with whether the two inputs have the same
    virtual register, and returns the canonicaliser's shuffle and
    [is_swizzle].  The view's two inputs are exchanged exactly when the
    canonicaliser reports [needs_swap], and for a swizzle the first input,
    as it is after that exchange, is also the second, so that [input(0)]
    and [input(1)] are the same operation. *)
Theorem CanonicalizeShuffle_spec (node : OpIndex) (op : Simd128ShuffleOp)
    (shuffle_size : nat) (buffer : list Byte.byte) (sel sel0 sel1 : Selector)
    (vreg0 vreg1 : Z) (canonical : list Byte.byte)
    (needs_swap is_swizzle : bool) (b : Build) :
  input_count op = 2%nat ->
  GetVirtualRegister (op_input op 0) sel = (vreg0, sel0) ->
  GetVirtualRegister (op_input op 1) sel0 = (vreg1, sel1) ->
  wasm_CanonicalizeShuffle kSimd128Size shuffle_size
    (bool_decide (vreg0 = vreg1))
    (take shuffle_size (shuffle op) ++ drop shuffle_size buffer)
  = (canonical, needs_swap, is_swizzle) ->
  exists view,
    CanonicalizeShuffle Selector GetVirtualRegister wasm_CanonicalizeShuffle
      kSimd128Size shuffle_size (simd_shuffle_view node op) buffer sel b
    = Ok (view, canonical, is_swizzle, sel1)
    /\ op128_ view = op
    /\ input_mapping_ view = canonical_mapping needs_swap is_swizzle
    /\ input view 0 b = Ok (op_input op (if needs_swap then 1 else 0)%nat)
    /\ (is_swizzle = false ->
        input view 1 b = Ok (op_input op (if needs_swap then 0 else 1)%nat))
    /\ (is_swizzle = true -> input view 1 b = input view 0 b).
Proof.
  intros Hcount Hv0 Hv1 Hcanon.
  destruct op as [ins raw]. unfold input_count, op_input in *. simpl in *.
  destruct ins as [| in0 [| in1 [| ? ?]]]; try discriminate Hcount.
  simpl in *.
  unfold CanonicalizeShuffle, input, DuplicateFirstInput, SwapShuffleInputs,
    SwapInputs, data, memcpy, input_count, op_input.
  run_checks.
  assert (Hb : forall (A : Type) (x : A),
             match b with Checked => Ok x | Unchecked => Ok x end = Ok x)
    by (intros; destruct b; reflexivity).
  rewrite !Hb, Hv0. simpl. rewrite !Hb, Hv1, Hcanon.
  destruct needs_swap, is_swizzle; simpl; rewrite ?Hb; simpl;
    (eexists; split; [reflexivity |]); simpl;
    rewrite ?Hb; repeat split; intros; try discriminate; reflexivity.
Qed.

(** The 256-bit instantiation asserts that the view is not a 128-bit view,
    which [isSimd128] never grants. *)
Lemma CanonicalizeShuffle_256_checked (view : SimdShuffleView)
    (shuffle_size : nat) (buffer : list Byte.byte) (sel : Selector) :
  CanonicalizeShuffle Selector GetVirtualRegister wasm_CanonicalizeShuffle
    kSimd256Size shuffle_size view buffer sel Checked = DCheckFailed.
Proof. reflexivity. Qed.
End CanonicalizeShuffleProofs.

Lemma CanonicalizeShuffle_spec_witness :
  exists view,
    CanonicalizeShuffle unit sample_GetVirtualRegister
      sample_wasm_CanonicalizeShuffle kSimd128Size kSimd128Size
      (simd_shuffle_view (Op 9) sample_shuffle_op) sample_buffer tt Checked
    = Ok (view, shuffle sample_shuffle_op, false, tt)
    /\ op128_ view = sample_shuffle_op
    /\ input_mapping_ view = canonical_mapping true false
    /\ input view 0 Checked = Ok (op_input sample_shuffle_op 1%nat)
    /\ (false = false ->
        input view 1 Checked = Ok (op_input sample_shuffle_op 0%nat))
    /\ (false = true -> input view 1 Checked = input view 0 Checked).
Proof.
  apply (CanonicalizeShuffle_spec unit sample_GetVirtualRegister
           sample_wasm_CanonicalizeShuffle (Op 9) sample_shuffle_op
           kSimd128Size sample_buffer tt tt tt 3 5
           (shuffle sample_shuffle_op) true false Checked); reflexivity.
Defined.

Example CanonicalizeShuffle_swizzle :
  exists view,
    CanonicalizeShuffle unit sample_GetVirtualRegister
      sample_wasm_CanonicalizeShuffle kSimd128Size kSimd128Size
      (simd_shuffle_view (Op 9) sample_swizzle_op) sample_buffer tt Checked
    = Ok (view, shuffle sample_swizzle_op, true, tt)
    /\ input_mapping_ view = [1%nat; 1%nat]
    /\ input view 0 Checked = Ok (Op 4)
    /\ input view 1 Checked = Ok (Op 4).
Proof.
  exists {| node_ := Op 9; input_mapping_ := [1%nat; 1%nat];
            op128_ := sample_swizzle_op |}.
  repeat split; vm_compute; reflexivity.
Qed.

(** ** Liveness: proofs *)

Lemma IsUsed_forced (sel : InstructionSelector) (node : OpIndex) :
  IsUsed sel node = has_forced_emission sel node || IsReallyUsed sel node.
Proof.
  unfold IsUsed, has_forced_emission, IsReallyUsed.
  destruct (Get (schedule_ sel) node) as [op |]; [| reflexivity].
  destruct (IsRequiredWhenUnused op); reflexivity.
Qed.

(** C10.  A node is live when it is not yet defined and is used, and really
    live when it is not yet defined and really used.  [IsUsed] is
    [IsReallyUsed] or-ed with the forced-emission effect, so without that
    effect the two, and with them [IsLive] and [IsReallyLive], agree, and with
    it [IsUsed] is true whatever the use bit says. *)
Theorem IsLive_spec (sel : InstructionSelector) (node : OpIndex) :
  (IsLive sel node = true <-> IsDefined sel node = false /\ IsUsed sel node = true)
  /\ (IsReallyLive sel node = true
      <-> IsDefined sel node = false /\ IsReallyUsed sel node = true)
  /\ IsLive sel node = negb (IsDefined sel node) && IsUsed sel node
  /\ IsReallyLive sel node = negb (IsDefined sel node) && IsReallyUsed sel node
  /\ IsUsed sel node = has_forced_emission sel node || IsReallyUsed sel node
  /\ (has_forced_emission sel node = false ->
      IsUsed sel node = IsReallyUsed sel node
      /\ IsLive sel node = IsReallyLive sel node)
  /\ (has_forced_emission sel node = true -> IsUsed sel node = true).
Proof.
  unfold IsLive, IsReallyLive. rewrite IsUsed_forced.
  destruct (IsDefined sel node), (has_forced_emission sel node),
    (IsReallyUsed sel node); simpl; intuition congruence.
Qed.

Example IsLive_forced_store :
  IsLive sample_selector (Op 3) = true
  /\ IsReallyLive sample_selector (Op 3) = false
  /\ IsLive sample_selector (Op 4) = true
  /\ IsReallyLive sample_selector (Op 4) = true
  /\ IsLive sample_selector (Op 7) = false.
Proof. repeat split; vm_compute; reflexivity. Qed.

(** ** Covering: proofs *)

(** The effect level is monotonic along the block scan. *)
Lemma effect_level_at_mono (g : Graph) (b n m : nat) :
  (n <= m)%nat -> effect_level_at g b n <= effect_level_at g b m.
Proof.
  intros Hnm. unfold effect_level_at. apply Nat2Z.inj_le.
  rewrite <- (take_drop n (take m g)), take_take, Nat.min_l by assumption.
  rewrite filter_app, length_app. lia.
Qed.

Lemma effect_level_lt_position (g : Graph) (b n m : nat) :
  effect_level_at g b n < effect_level_at g b m -> (n < m)%nat.
Proof.
  intros Hlt. destruct (Nat.lt_ge_cases n m) as [H | H]; [assumption |].
  apply (effect_level_at_mono g b) in H. lia.
Qed.

Lemma side_effect_in_between (g : Graph) (b n u s : nat) (op : Operation) :
  g !! s = Some op -> side_effect_in b op -> (n < s < u)%nat ->
  side_effects_between g b n u <> [].
Proof.
  intros Hs Heff [Hlo Hhi] Hnil.
  assert (Hin : op ∈ side_effects_between g b n u).
  { unfold side_effects_between. apply list_elem_of_filter. split; [assumption |].
    apply (list_elem_of_lookup_2 _ (s - S n)).
    rewrite lookup_drop, lookup_take_lt by lia.
    replace (S n + (s - S n))%nat with s by lia. assumption. }
  rewrite Hnil in Hin. apply elem_of_nil in Hin. assumption.
Qed.

Lemma GetEffectLevel_in_block (sel : InstructionSelector) (b n : nat) :
  BlockOf (schedule_ sel) (Op n) = Some b ->
  GetEffectLevel sel (Op n) = effect_level_at (schedule_ sel) b n.
Proof. intros H. unfold GetEffectLevel. rewrite H. reflexivity. Qed.

Lemma side_effecting_in_position (g : Graph) (b : nat) (s : OpIndex) :
  side_effecting_in g b s ->
  exists p op, s = Op p /\ g !! p = Some op /\ side_effect_in b op
               /\ BlockOf g s = Some b.
Proof.
  intros (op & Hget & Heff). destruct s as [| p]; [discriminate Hget |].
  exists p, op. repeat split; try assumption; try apply Heff.
  unfold BlockOf. rewrite Hget. simpl. f_equal. apply Heff.
Qed.

Lemma CanCover_true (sel : InstructionSelector) (user node : OpIndex) :
  CanCover sel user node = true ->
  exists u n b, user = Op u /\ node = Op n
    /\ BlockOf (schedule_ sel) user = Some b
    /\ BlockOf (schedule_ sel) node = Some b
    /\ uses (schedule_ sel) node = [user]
    /\ side_effects_between (schedule_ sel) b n u = [].
Proof.
  unfold CanCover. intros H.
  destruct user as [| u]; [discriminate H |].
  destruct node as [| n]; [discriminate H |].
  destruct (BlockOf (schedule_ sel) (Op u)) as [bu |] eqn:Hbu; [| discriminate H].
  destruct (BlockOf (schedule_ sel) (Op n)) as [bn |] eqn:Hbn; [| discriminate H].
  apply andb_true_iff in H as [H Hbetween].
  apply andb_true_iff in H as [Huses Hblock].
  apply bool_decide_eq_true in Huses, Hblock, Hbetween. subst bu.
  exists u, n, bn. repeat split; assumption.
Qed.

Lemma CanCover_no_effect_level_between (sel : InstructionSelector)
    (user node s : OpIndex) (b : nat) :
  CanCover sel user node = true ->
  BlockOf (schedule_ sel) node = Some b ->
  side_effecting_in (schedule_ sel) b s ->
  ~ (GetEffectLevel sel node < GetEffectLevel sel s < GetEffectLevel sel user).
Proof.
  intros Hcover Hb Hs [Hlo Hhi].
  apply CanCover_true in Hcover
    as (u & n & b' & -> & -> & Hbu & Hbn & _ & Hnone).
  rewrite Hbn in Hb. injection Hb as ->.
  apply side_effecting_in_position in Hs as (p & op & -> & Hp & Heff & Hbp).
  rewrite (GetEffectLevel_in_block sel b n Hbn),
    (GetEffectLevel_in_block sel b p Hbp) in Hlo.
  rewrite (GetEffectLevel_in_block sel b p Hbp),
    (GetEffectLevel_in_block sel b u Hbu) in Hhi.
  apply effect_level_lt_position in Hlo, Hhi.
  apply (side_effect_in_between (schedule_ sel) b n u p op); auto.
Qed.

Lemma effect_level_at_succ (g : Graph) (b p : nat) (op : Operation) :
  g !! p = Some op -> side_effect_in b op ->
  effect_level_at g b (S p) = effect_level_at g b p + 1.
Proof.
  intros Hp Heff. unfold effect_level_at.
  rewrite (take_S_r g p op Hp), filter_app, length_app.
  rewrite filter_cons_True by assumption. simpl. lia.
Qed.

(** A side-effecting operation of the block other than the node is scheduled
    strictly between the node and the user exactly when its effect level is
    at least the node's and below the user's. *)
Lemma between_iff_effect_level (g : Graph) (b n u p : nat) (op : Operation) :
  g !! p = Some op -> side_effect_in b op -> p <> n ->
  (n < p < u)%nat
  <-> effect_level_at g b n <= effect_level_at g b p < effect_level_at g b u.
Proof.
  intros Hp Heff Hne.
  pose proof (effect_level_at_succ g b p op Hp Heff) as Hsucc. split.
  - intros [Hlo Hhi]. split.
    + apply effect_level_at_mono. lia.
    + pose proof (effect_level_at_mono g b (S p) u). lia.
  - intros [Hlo Hhi]. split.
    + destruct (Nat.lt_ge_cases n p) as [H | H]; [assumption |].
      pose proof (effect_level_at_mono g b (S p) n). lia.
    + apply (effect_level_lt_position g b). assumption.
Qed.

Lemma no_side_effects_between (sel : InstructionSelector) (b n u : nat) :
  BlockOf (schedule_ sel) (Op n) = Some b ->
  BlockOf (schedule_ sel) (Op u) = Some b ->
  (forall s, side_effecting_in (schedule_ sel) b s -> s <> Op n ->
     ~ (GetEffectLevel sel (Op n) <= GetEffectLevel sel s
        < GetEffectLevel sel (Op u))) ->
  side_effects_between (schedule_ sel) b n u = [].
Proof.
  intros Hbn Hbu Hnone. apply elem_of_nil_inv. intros op Hin.
  unfold side_effects_between in Hin.
  apply list_elem_of_filter in Hin as [Heff Hin].
  apply list_elem_of_lookup in Hin as [i Hi].
  rewrite lookup_drop in Hi. apply lookup_take_Some in Hi as [Hp Hlt].
  remember (S n + i)%nat as p eqn:Hpos in *.
  assert (Hbp : BlockOf (schedule_ sel) (Op p) = Some b).
  { unfold BlockOf, Get.
    etransitivity; [exact (f_equal (fmap op_block) Hp) |].
    simpl. f_equal. apply Heff. }
  apply (Hnone (Op p)).
  - exists op. split; assumption.
  - intros [= Heq]. lia.
  - rewrite (GetEffectLevel_in_block sel b n Hbn),
      (GetEffectLevel_in_block sel b p Hbp),
      (GetEffectLevel_in_block sel b u Hbu).
    apply (between_iff_effect_level _ b n u p op); try assumption; lia.
Qed.

Lemma CanCover_no_side_effect_between (sel : InstructionSelector)
    (user node s : OpIndex) (b : nat) :
  CanCover sel user node = true ->
  BlockOf (schedule_ sel) node = Some b ->
  side_effecting_in (schedule_ sel) b s ->
  s <> node ->
  ~ (GetEffectLevel sel node <= GetEffectLevel sel s < GetEffectLevel sel user).
Proof.
  intros Hcover Hb Hs Hne Hlev.
  apply CanCover_true in Hcover
    as (u & n & b' & -> & -> & Hbu & Hbn & _ & Hnone).
  rewrite Hbn in Hb. injection Hb as ->.
  apply side_effecting_in_position in Hs as (p & op & -> & Hp & Heff & Hbp).
  rewrite (GetEffectLevel_in_block sel b n Hbn),
    (GetEffectLevel_in_block sel b p Hbp),
    (GetEffectLevel_in_block sel b u Hbu) in Hlev.
  assert (Hpn : p <> n) by congruence.
  apply (between_iff_effect_level _ b n u p op Hp Heff Hpn) in Hlev.
  apply (side_effect_in_between (schedule_ sel) b n u p op); auto.
Qed.

(** C1.  [CanCover] is true exactly when the node has exactly one use and
    that use is the user, the two are in the same block, and no
    side-effecting operation of the block other than the node has an effect
    level from the node's up to, but not including, the user's; these are the
    side-effecting operations scheduled between the two.  So it is true only
    if no such effect level lies strictly between theirs, and it is false
    whenever the node has more than one use, whenever the two are in
    different blocks, and whenever such an effect level lies between them. *)
Theorem CanCover_spec (sel : InstructionSelector) (user node : OpIndex) :
  (CanCover sel user node = true <->
   uses (schedule_ sel) node = [user]
   /\ exists b, BlockOf (schedule_ sel) user = Some b
        /\ BlockOf (schedule_ sel) node = Some b
        /\ forall s, side_effecting_in (schedule_ sel) b s -> s <> node ->
             ~ (GetEffectLevel sel node <= GetEffectLevel sel s
                < GetEffectLevel sel user))
  /\ (CanCover sel user node = true ->
      forall b s, BlockOf (schedule_ sel) node = Some b ->
        side_effecting_in (schedule_ sel) b s ->
        ~ (GetEffectLevel sel node < GetEffectLevel sel s
           < GetEffectLevel sel user))
  /\ ((1 < length (uses (schedule_ sel) node))%nat ->
      CanCover sel user node = false)
  /\ (BlockOf (schedule_ sel) user <> BlockOf (schedule_ sel) node ->
      CanCover sel user node = false)
  /\ (forall b s, BlockOf (schedule_ sel) node = Some b ->
      side_effecting_in (schedule_ sel) b s ->
      GetEffectLevel sel node < GetEffectLevel sel s < GetEffectLevel sel user ->
      CanCover sel user node = false)
  /\ (forall b s, BlockOf (schedule_ sel) node = Some b ->
      side_effecting_in (schedule_ sel) b s -> s <> node ->
      GetEffectLevel sel node <= GetEffectLevel sel s < GetEffectLevel sel user ->
      CanCover sel user node = false).
Proof.
  split; [| split; [| split; [| split; [| split]]]].
  - split.
    + intros Hcover. pose proof Hcover as Htrue.
      apply CanCover_true in Htrue as (u & n & b & _ & _ & Hu & Hn & Huses & _).
      split; [assumption |]. exists b. split; [assumption |].
      split; [assumption |]. intros s Hs Hne.
      apply (CanCover_no_side_effect_between sel user node s b); assumption.
    + intros (Huses & b & Hu & Hn & Hnone).
      destruct user as [| u]; [discriminate Hu |].
      destruct node as [| n]; [discriminate Hn |].
      unfold CanCover. rewrite Hu, Hn.
      rewrite (no_side_effects_between sel b n u Hn Hu Hnone).
      rewrite !bool_decide_eq_true_2 by (assumption || reflexivity).
      reflexivity.
  - intros Hcover b s Hb Hs.
    apply (CanCover_no_effect_level_between sel user node s b); assumption.
  - intros Hmany. apply not_true_is_false. intros Hcover.
    apply CanCover_true in Hcover as (u & n & b & _ & _ & _ & _ & H & _).
    rewrite H in Hmany. simpl in Hmany. lia.
  - intros Hdiff. apply not_true_is_false. intros Hcover.
    apply CanCover_true in Hcover as (u & n & b & _ & _ & Hu & Hn & _).
    apply Hdiff. rewrite Hu, Hn. reflexivity.
  - intros b s Hb Hs Hbetween. apply not_true_is_false. intros Hcover.
    apply (CanCover_no_effect_level_between sel user node s b); assumption.
  - intros b s Hb Hs Hne Hbetween. apply not_true_is_false. intros Hcover.
    apply (CanCover_no_side_effect_between sel user node s b); assumption.
Qed.

(** A load, a store and the only user of the load: the store lies between,
    at the load's effect level, and the load is not covered. *)
Example CanCover_across_one_store :
  GetEffectLevel one_store_selector (Op 0) = 0
  /\ GetEffectLevel one_store_selector (Op 1) = 0
  /\ GetEffectLevel one_store_selector (Op 2) = 1
  /\ uses (schedule_ one_store_selector) (Op 0) = [Op 2]
  /\ CanCover one_store_selector (Op 2) (Op 0) = false.
Proof. repeat split; vm_compute; reflexivity. Qed.

(** On the sample schedule: the compare covers the add; the compare itself
    has two uses; the constant's only user is in the next block; and two
    stores lie between the load and its user. *)
Example CanCover_sample :
  CanCover sample_selector (Op 2) (Op 1) = true
  /\ uses sample_graph (Op 2) = [Op 5; Op 6]
  /\ CanCover sample_selector (Op 5) (Op 2) = false
  /\ uses sample_graph (Op 8) = [Op 9]
  /\ CanCover sample_selector (Op 9) (Op 8) = false
  /\ uses sample_graph (Op 4) = [Op 7]
  /\ GetEffectLevel sample_selector (Op 4) = 1
  /\ GetEffectLevel sample_selector (Op 6) = 2
  /\ GetEffectLevel sample_selector (Op 7) = 3
  /\ CanCover sample_selector (Op 7) (Op 4) = false.
Proof. repeat split; vm_compute; reflexivity. Qed.

(** ** Flags continuation: factories and mutators *)

Lemma Build_Ok {A : Type} (b : Build) (x : A) :
  match b with Checked => Ok x | Unchecked => Ok x end = Ok x.
Proof. destruct b; reflexivity. Qed.

(** X1.  With two blocks that are not null, the branch factories return a
    Branch continuation that hands back the condition, the blocks and the
    hint, and [ForBranch] leaves the hint at kNone; with a null block they
    fail an assertion in a checked build. *)
Theorem branch_factories_roundtrip (raw : FlagsContinuation)
    (cond : FlagsCondition) (tb fb : nat) (h : BranchHint.t)
    (null_or_block : BlockPtr) (b : Build) :
  (exists k, ForHintedBranch raw cond (Some tb) (Some fb) h b = Ok k
     /\ IsBranch k = true
     /\ condition k b = Ok cond
     /\ true_block k b = Ok (Some tb)
     /\ false_block k b = Ok (Some fb)
     /\ hint k b = Ok h)
  /\ (exists k, ForBranch raw cond (Some tb) (Some fb) b = Ok k
     /\ ForHintedBranch raw cond (Some tb) (Some fb) BranchHint.kNone b = Ok k)
  /\ ForHintedBranch raw cond None null_or_block h Checked = DCheckFailed
  /\ ForHintedBranch raw cond null_or_block None h Checked = DCheckFailed
  /\ ForBranch raw cond None null_or_block Checked = DCheckFailed
  /\ ForBranch raw cond null_or_block None Checked = DCheckFailed.
Proof.
  unfold ForBranch, ForHintedBranch, FlagsContinuation_branch.
  split; [| split].
  - eexists. split; [destruct b; reflexivity |].
    repeat split; destruct b; reflexivity.
  - eexists. split; destruct b; reflexivity.
  - destruct null_or_block; repeat split; reflexivity.
Qed.

(** X2.  [ForSet] and [ForSelect] assert that the operations they are given
    are valid; on valid ones they return a continuation of their mode that
    hands the operations and the condition back. *)
Theorem value_factories_roundtrip (raw : FlagsContinuation)
    (cond : FlagsCondition) (res tv fv : OpIndex) (b : Build) :
  (valid res = false -> ForSet raw cond res Checked = DCheckFailed)
  /\ (valid res = true ->
      exists k, ForSet raw cond res b = Ok k
        /\ IsSet k = true
        /\ condition k b = Ok cond
        /\ result k b = Ok res)
  /\ (valid res && valid tv && valid fv = false ->
      ForSelect raw cond res tv fv Checked = DCheckFailed)
  /\ (valid res && valid tv && valid fv = true ->
      exists k, ForSelect raw cond res tv fv b = Ok k
        /\ IsSelect k = true
        /\ condition k b = Ok cond
        /\ result k b = Ok res
        /\ true_value k b = Ok tv
        /\ false_value k b = Ok fv).
Proof.
  unfold ForSet, ForSelect, FlagsContinuation_set, FlagsContinuation_select.
  repeat split.
  - intros H. run_checks. rewrite H. reflexivity.
  - intros H. run_checks. rewrite H, !Build_Ok.
    eexists. split; [reflexivity |]. repeat split; destruct b; reflexivity.
  - intros H. run_checks.
    destruct (valid res), (valid tv), (valid fv); try discriminate H; reflexivity.
  - intros H. apply andb_true_iff in H as [H Hf].
    apply andb_true_iff in H as [Hr Ht].
    run_checks. rewrite Hr, Ht, Hf, !Build_Ok.
    eexists. split; [reflexivity |]. repeat split; destruct b; reflexivity.
Qed.

(** X3.  [ForTrap] and [ForDeoptimizeForTesting] have no assertion of their
    own: they return in every build, and the testing factory accepts every
    frame state, the invalid one too, which [frame_state] then hands back. *)
Theorem unchecked_factories_roundtrip (raw : FlagsContinuation)
    (cond : FlagsCondition) (trap : TrapId) (why : DeoptimizeReason) (id : N)
    (fb : FeedbackSource) (fs : OpIndex) (b : Build) :
  (exists k, ForTrap raw cond trap b = Ok k
     /\ IsTrap k = true
     /\ condition k b = Ok cond
     /\ trap_id k b = Ok trap)
  /\ (exists k, ForDeoptimizeForTesting raw cond why id fb fs b = Ok k
     /\ IsDeoptimize k = true
     /\ condition k b = Ok cond
     /\ reason k b = Ok why
     /\ node_id k b = Ok id
     /\ feedback k b = Ok fb
     /\ frame_state k b = Ok fs).
Proof.
  split; eexists; (split; [destruct b; reflexivity |]);
    repeat split; destruct b; reflexivity.
Qed.

(** X4.  The condition of a chain continuation is the compare condition of
    the first step of the chain; the condition the factory is given is the
    final condition.  The trap id and the blocks are handed back. *)
Theorem chain_factories_condition (raw : FlagsContinuation)
    (chain : compare_chain_t) (count : N) (cond : FlagsCondition)
    (tb fb : nat) (trap : TrapId) (b : Build) :
  (exists k,
     ForConditionalBranch raw chain count cond (Some tb) (Some fb) b = Ok k
     /\ condition k b = Ok (compare_condition (chain !!! 0%fin))
     /\ final_condition k b = Ok cond
     /\ true_block k b = Ok (Some tb)
     /\ false_block k b = Ok (Some fb))
  /\ (exists k, ForConditionalTrap raw chain count cond trap b = Ok k
     /\ condition k b = Ok (compare_condition (chain !!! 0%fin))
     /\ final_condition k b = Ok cond
     /\ trap_id k b = Ok trap).
Proof.
  assert (Hfront : front chain = chain !!! 0%fin).
  { unfold front. inv_vec chain. reflexivity. }
  rewrite <- Hfront.
  split; eexists; (split; [destruct b; reflexivity |]);
    repeat split; destruct b; reflexivity.
Qed.

(** X5.  [Negate], [Commute] and [Overwrite] write the condition and nothing
    else: when one of them returns, the mode and every payload member are
    as before. *)
Theorem mutators_keep_mode_and_payload (k k' : FlagsContinuation)
    (c : FlagsCondition) (b : Build) :
  Negate k b = Ok k' \/ Commute k b = Ok k' \/ Overwrite k c b = Ok k' ->
  mode_ k' = mode_ k /\ set_condition k' (condition_ k) = k.
Proof.
  destruct k as [m cond ? ? ? ? ? ? ? ? ? ? ? ? ?].
  intros [H | [H | H]]; destruct b, m; simpl in H; try discriminate H;
    injection H as <-; split; reflexivity.
Qed.

Lemma mutators_keep_mode_and_payload_witness :
  mode_ (set_condition sample_branch kNotEqual) = mode_ sample_branch
  /\ set_condition (set_condition sample_branch kNotEqual)
       (condition_ sample_branch) = sample_branch.
Proof.
  apply (mutators_keep_mode_and_payload sample_branch
           (set_condition sample_branch kNotEqual) kEqual Checked).
  left. reflexivity.
Defined.



(** X7.  [OverwriteUnsignedIfSigned] never leaves a signed comparison, and a
    second call changes nothing. *)
Theorem OverwriteUnsignedIfSigned_idempotent (k k' : FlagsContinuation) (b : Build) :
  OverwriteUnsignedIfSigned k b = Ok k' ->
  is_signed_comparison (condition_ k') = false
  /\ OverwriteUnsignedIfSigned k' b = Ok k'.
Proof.
  destruct k as [m cond ? ? ? ? ? ? ? ? ? ? ? ? ?].
  intros H; destruct b, m; try discriminate H;
    destruct cond; simpl in H; injection H as <-; split; reflexivity.
Qed.

Lemma OverwriteUnsignedIfSigned_idempotent_witness :
  is_signed_comparison
    (condition_ (set_condition sample_select kUnsignedLessThan)) = false
  /\ OverwriteUnsignedIfSigned (set_condition sample_select kUnsignedLessThan)
       Checked = Ok (set_condition sample_select kUnsignedLessThan).
Proof.
  apply (OverwriteUnsignedIfSigned_idempotent sample_select
           (set_condition sample_select kUnsignedLessThan) Checked).
  reflexivity.
Defined.

(** ** Opcode encoding: further properties *)

Lemma lor_absorb (a x : Z) : Z.lor (Z.lor a x) x = Z.lor a x.
Proof. rewrite <- Z.lor_assoc, Z.lor_diag. reflexivity. Qed.

Lemma land_lor_absorb (a x : Z) : Z.land (Z.lor a x) a = a.
Proof.
  apply Z.bits_inj'. intros n _. rewrite Z.land_spec, Z.lor_spec.
  destruct (Z.testbit a n), (Z.testbit x n); reflexivity.
Qed.

(** X8.  [Encode] only sets bits: every bit of the opcode is still set in the
    result, whatever the layout of the fields, and encoding the same
    continuation a second time changes nothing. *)
Theorem Encode_only_sets_bits (fm fc : BitField) (mv : FlagsMode -> Z)
    (cv : FlagsCondition -> Z) (k : FlagsContinuation) (opcode : InstructionCode) :
  Z.land (Encode fm fc mv cv k opcode) opcode = opcode
  /\ Encode fm fc mv cv k (Encode fm fc mv cv k opcode)
     = Encode fm fc mv cv k opcode.
Proof.
  unfold Encode.
  destruct (bool_decide (mode_ k <> kFlags_none)); split.
  - rewrite <- Z.lor_assoc. apply land_lor_absorb.
  - set (m := encode fm (mv (mode_ k))). set (c := encode fc (cv (condition_ k))).
    apply Z.bits_inj'. intros n _. rewrite !Z.lor_spec.
    destruct (Z.testbit opcode n), (Z.testbit m n), (Z.testbit c n); reflexivity.
  - apply land_lor_absorb.
  - apply lor_absorb.
Qed.

Section EncodeRoundTrip.
Variables FlagsModeField FlagsConditionField : BitField.
Variable FlagsMode_value : FlagsMode -> Z.
Variable FlagsCondition_value : FlagsCondition -> Z.

Hypothesis mode_field_wf : field_wf FlagsModeField.
Hypothesis condition_field_wf : field_wf FlagsConditionField.
Hypothesis fields_apart : fields_disjoint FlagsModeField FlagsConditionField.
Hypothesis mode_fits : forall m, fits FlagsModeField (FlagsMode_value m).
Hypothesis condition_fits :
  forall c, fits FlagsConditionField (FlagsCondition_value c).

Local Abbreviation Encode'' :=
  (Encode FlagsModeField FlagsConditionField FlagsMode_value FlagsCondition_value).

Lemma decode_mode_of_Encode (k : FlagsContinuation) (opcode : InstructionCode) :
  decode FlagsModeField (Encode'' k opcode)
  = Z.lor (decode FlagsModeField opcode) (FlagsMode_value (mode_ k)).
Proof.
  unfold Encode. destruct (bool_decide (mode_ k <> kFlags_none)).
  - rewrite decode_other_lor by auto. apply decode_encode_lor; auto.
  - apply decode_encode_lor; auto.
Qed.

Lemma decode_condition_of_Encode (k : FlagsContinuation) (opcode : InstructionCode) :
  mode_ k <> kFlags_none ->
  decode FlagsConditionField (Encode'' k opcode)
  = Z.lor (decode FlagsConditionField opcode) (FlagsCondition_value (condition_ k)).
Proof.
  intros Hn. unfold Encode. rewrite bool_decide_eq_true_2 by assumption.
  rewrite decode_encode_lor by auto.
  rewrite decode_other_lor by (auto using fields_disjoint_sym). reflexivity.
Qed.

(** X9.  Round trip.  On an opcode whose two fields are still clear, decoding
    the mode field of the encoded word gives the mode back, and in a mode
    other than None decoding the condition field gives the condition back.
    So, when the enumerators have distinct values, two continuations that
    encode an opcode to the same word have the same mode and, unless it is
    None, the same condition. *)
Theorem Encode_decode_roundtrip (k1 k2 : FlagsContinuation) (opcode : InstructionCode) :
  decode FlagsModeField opcode = 0 ->
  decode FlagsConditionField opcode = 0 ->
  decode FlagsModeField (Encode'' k1 opcode) = FlagsMode_value (mode_ k1)
  /\ (mode_ k1 <> kFlags_none ->
      decode FlagsConditionField (Encode'' k1 opcode)
      = FlagsCondition_value (condition_ k1))
  /\ ((forall m m', FlagsMode_value m = FlagsMode_value m' -> m = m') ->
      (forall c c', FlagsCondition_value c = FlagsCondition_value c' -> c = c') ->
      Encode'' k1 opcode = Encode'' k2 opcode ->
      mode_ k1 = mode_ k2
      /\ (mode_ k1 <> kFlags_none -> condition_ k1 = condition_ k2)).
Proof.
  intros Hm Hc.
  assert (Hmode : forall k,
    decode FlagsModeField (Encode'' k opcode) = FlagsMode_value (mode_ k)).
  { intros k. rewrite decode_mode_of_Encode, Hm. apply Z.lor_0_l. }
  assert (Hcond : forall k, mode_ k <> kFlags_none ->
    decode FlagsConditionField (Encode'' k opcode)
    = FlagsCondition_value (condition_ k)).
  { intros k Hn. rewrite decode_condition_of_Encode, Hc by assumption.
    apply Z.lor_0_l. }
  split; [apply Hmode |]. split; [apply Hcond |].
  intros Hinj_m Hinj_c Heq.
  assert (Hsame : mode_ k1 = mode_ k2).
  { apply Hinj_m. rewrite <- !Hmode, Heq. reflexivity. }
  split; [assumption |]. intros Hn.
  apply Hinj_c. rewrite <- !Hcond by (try rewrite <- Hsame; assumption).
  rewrite Heq. reflexivity.
Qed.
End EncodeRoundTrip.

Lemma sample_fields_ok :
  field_wf sample_FlagsModeField
  /\ field_wf sample_FlagsConditionField
  /\ fields_disjoint sample_FlagsModeField sample_FlagsConditionField
  /\ (forall m, fits sample_FlagsModeField (sample_FlagsMode_value m))
  /\ (forall c, fits sample_FlagsConditionField (sample_FlagsCondition_value c)).
Proof.
  split; [vm_compute; split; discriminate |].
  split; [vm_compute; split; discriminate |].
  split; [left; vm_compute; discriminate |].
  split; intros []; (vm_compute; split; [discriminate | reflexivity]).
Defined.

Lemma Encode_decode_roundtrip_witness :
  decode sample_FlagsModeField
    (Encode sample_FlagsModeField sample_FlagsConditionField
       sample_FlagsMode_value sample_FlagsCondition_value sample_select 33)
  = sample_FlagsMode_value (mode_ sample_select)
  /\ (mode_ sample_select <> kFlags_none ->
      decode sample_FlagsConditionField
        (Encode sample_FlagsModeField sample_FlagsConditionField
           sample_FlagsMode_value sample_FlagsCondition_value sample_select 33)
      = sample_FlagsCondition_value (condition_ sample_select)).
Proof.
  destruct sample_fields_ok as (Hm & Hc & Hd & Hfm & Hfc).
  destruct (Encode_decode_roundtrip
              sample_FlagsModeField sample_FlagsConditionField
              sample_FlagsMode_value sample_FlagsCondition_value
              Hm Hc Hd Hfm Hfc sample_select sample_branch 33
              eq_refl eq_refl) as (H1 & H2 & _).
  split; assumption.
Defined.

(** X10.  When both fields lie within the 32-bit word and the enumerators
    fit them, [Encode] of a 32-bit opcode is a 32-bit opcode: no bit is
    shifted out of the word. *)
Theorem Encode_stays_in_word (fm fc : BitField) (mv : FlagsMode -> Z)
    (cv : FlagsCondition -> Z) (k : FlagsContinuation) (opcode : InstructionCode) :
  field_wf fm -> field_wf fc ->
  kShift fm + kSize fm <= 32 -> kShift fc + kSize fc <= 32 ->
  (forall m, fits fm (mv m)) -> (forall c, fits fc (cv c)) ->
  0 <= opcode < 2 ^ 32 ->
  0 <= Encode fm fc mv cv k opcode < 2 ^ 32
  /\ uint32_wrap (Encode fm fc mv cv k opcode) = Encode fm fc mv cv k opcode.
Proof.
  intros Hfm Hfc Hm Hc Hmv Hcv Hop.
  assert (H : 0 <= Encode fm fc mv cv k opcode < 2 ^ 32)
    by (apply Encode_in_word; assumption).
  split; [assumption |]. unfold uint32_wrap. apply Z.mod_small. assumption.
Qed.

Lemma Encode_stays_in_word_witness :
  0 <= Encode sample_FlagsModeField sample_FlagsConditionField
         sample_FlagsMode_value sample_FlagsCondition_value sample_select 33
    < 2 ^ 32
  /\ uint32_wrap
       (Encode sample_FlagsModeField sample_FlagsConditionField
          sample_FlagsMode_value sample_FlagsCondition_value sample_select 33)
     = Encode sample_FlagsModeField sample_FlagsConditionField
         sample_FlagsMode_value sample_FlagsCondition_value sample_select 33.
Proof.
  destruct sample_fields_ok as (Hm & Hc & _ & Hfm & Hfc).
  apply (Encode_stays_in_word sample_FlagsModeField sample_FlagsConditionField
           sample_FlagsMode_value sample_FlagsCondition_value sample_select 33
           Hm Hc); try assumption; vm_compute; try discriminate;
    split; (discriminate || reflexivity).
Defined.

(** ** Features: proofs *)

Lemma feature_bit (f : Z) : 0 <= f < 32 -> uint32_wrap (Z.shiftl 1 f) = 2 ^ f.
Proof.
  intros [Hlo Hhi]. unfold uint32_wrap.
  rewrite Z.shiftl_1_l. apply Z.mod_small. split; [apply Z.pow_nonneg; lia |].
  apply Z.pow_lt_mono_r; lia.
Qed.

Lemma land_pow2 (a f : Z) :
  0 <= f -> Z.land a (2 ^ f) = if Z.testbit a f then 2 ^ f else 0.
Proof.
  intros Hf. apply Z.bits_inj'. intros i Hi.
  rewrite Z.land_spec, Z.pow2_bits_eqb by assumption.
  destruct (Z.eqb_spec f i) as [<- | Hne].
  - destruct (Z.testbit a f); simpl.
    + rewrite Z.pow2_bits_true by assumption. reflexivity.
    + rewrite Z.bits_0. reflexivity.
  - rewrite andb_false_r. destruct (Z.testbit a f).
    + rewrite Z.pow2_bits_false by assumption. reflexivity.
    + rewrite Z.bits_0. reflexivity.
Qed.

Lemma Contains_testbit (s : Features.t) (f : Z) :
  0 <= f < 32 -> Features.Contains s f = Z.testbit (Features.bits_ s) f.
Proof.
  intros Hf. unfold Features.Contains.
  rewrite feature_bit, land_pow2 by lia.
  destruct (Z.testbit (Features.bits_ s) f); [| reflexivity].
  apply negb_true_iff, Z.eqb_neq.
  pose proof (Z.pow_pos_nonneg 2 f). lia.
Qed.

(** X11.  A [Features] value is a set of features, for features below 32:
    [Contains] tests the bit of the feature; the empty set contains none,
    the set made from one feature contains exactly that one, and the set
    made from two contains exactly those two. *)
Theorem Features_Contains_spec (bits f1 f2 g : Z) :
  0 <= f1 < 32 -> 0 <= f2 < 32 -> 0 <= g < 32 ->
  Features.Contains (Features.of_bits bits) g = Z.testbit bits g
  /\ Features.Contains Features.empty g = false
  /\ Features.Contains (Features.single f1) g = bool_decide (g = f1)
  /\ Features.Contains (Features.pair f1 f2) g
     = bool_decide (g = f1 \/ g = f2).
Proof.
  intros H1 H2 Hg. rewrite !Contains_testbit by assumption. simpl.
  rewrite !feature_bit by assumption.
  split; [reflexivity |]. split; [apply Z.bits_0 |].
  rewrite Z.lor_spec, !Z.pow2_bits_eqb by lia.
  split.
  - destruct (Z.eqb_spec f1 g) as [-> | Hne].
    + rewrite bool_decide_eq_true_2; reflexivity.
    + rewrite bool_decide_eq_false_2; [reflexivity | congruence].
  - destruct (Z.eqb_spec f1 g) as [-> | Hne1].
    + rewrite bool_decide_eq_true_2; [reflexivity | left; reflexivity].
    + destruct (Z.eqb_spec f2 g) as [-> | Hne2].
      * rewrite bool_decide_eq_true_2; [reflexivity | right; reflexivity].
      * rewrite bool_decide_eq_false_2; [reflexivity |].
        intros [-> | ->]; congruence.
Qed.

Lemma Features_Contains_spec_witness :
  Features.Contains (Features.of_bits 10) 3 = Z.testbit 10 3
  /\ Features.Contains Features.empty 3 = false
  /\ Features.Contains (Features.single 5) 3 = bool_decide (3 = 5)
  /\ Features.Contains (Features.pair 5 3) 3 = bool_decide (3 = 5 \/ 3 = 3).
Proof. apply (Features_Contains_spec 10 5 3 3); lia. Defined.

(** ** Shuffle view: further properties *)

(** X12.  A view as its constructor makes it maps every input to itself:
    [input(i)] is the i-th input of the operation for every i below the
    input count, and fails its assertion in a checked build for every other
    i. *)
Theorem simd_shuffle_view_inputs (node : OpIndex) (op : Simd128ShuffleOp)
    (i : nat) (b : Build) :
  ((i < input_count op)%nat ->
   input (simd_shuffle_view node op) i b = Ok (op_input op i)
   /\ inputs op !! i = Some (op_input op i))
  /\ ((input_count op <= i)%nat ->
      input (simd_shuffle_view node op) i Checked = DCheckFailed).
Proof.
  unfold input, simd_shuffle_view. simpl. run_checks. split.
  - intros Hi. rewrite bool_decide_eq_true_2, Build_Ok by assumption.
    rewrite lookup_seq_lt by assumption. simpl. split; [reflexivity |].
    unfold op_input, input_count in *.
    destruct (lookup_lt_is_Some_2 (inputs op) i Hi) as [x Hx].
    rewrite Hx. reflexivity.
  - intros Hi. rewrite bool_decide_eq_false_2 by lia. reflexivity.
Qed.

(** X13.  [SwapInputs] exchanges what [input(0)] and [input(1)] give and
    leaves every other input; swapping twice gives the view back. *)
Theorem SwapInputs_exchanges (view : SimdShuffleView) (i : nat) (b : Build) :
  (2 <= length (input_mapping_ view))%nat ->
  (2 <= input_count (op128_ view))%nat ->
  SwapInputs (SwapInputs view) = view
  /\ input (SwapInputs view) 0 b = input view 1 b
  /\ input (SwapInputs view) 1 b = input view 0 b
  /\ ((2 <= i)%nat -> input (SwapInputs view) i b = input view i b).
Proof.
  destruct view as [node mapping op]. simpl. intros Hlen Hcount.
  destruct mapping as [| m0 [| m1 rest]]; simpl in Hlen; try lia.
  unfold SwapInputs, input. simpl. run_checks.
  rewrite !bool_decide_eq_true_2 by lia. repeat split.
  intros Hi. destruct i as [| [| i]]; try lia. reflexivity.
Qed.

Lemma SwapInputs_exchanges_witness :
  SwapInputs (SwapInputs (simd_shuffle_view (Op 9) sample_shuffle_op))
  = simd_shuffle_view (Op 9) sample_shuffle_op
  /\ input (SwapInputs (simd_shuffle_view (Op 9) sample_shuffle_op)) 0 Checked
     = input (simd_shuffle_view (Op 9) sample_shuffle_op) 1 Checked
  /\ input (SwapInputs (simd_shuffle_view (Op 9) sample_shuffle_op)) 1 Checked
     = input (simd_shuffle_view (Op 9) sample_shuffle_op) 0 Checked
  /\ ((2 <= 2)%nat ->
      input (SwapInputs (simd_shuffle_view (Op 9) sample_shuffle_op)) 2 Checked
      = input (simd_shuffle_view (Op 9) sample_shuffle_op) 2 Checked).
Proof.
  apply (SwapInputs_exchanges (simd_shuffle_view (Op 9) sample_shuffle_op)
           2 Checked); vm_compute; lia.
Defined.

(** X14.  [DuplicateFirstInput] asserts that the view maps at least two
    inputs.  When it does, the first input is kept and is also the second
    afterwards; a second duplication and a swap then change nothing. *)
Theorem DuplicateFirstInput_spec (view : SimdShuffleView) (b : Build) :
  ((length (input_mapping_ view) < 2)%nat ->
   DuplicateFirstInput view Checked = DCheckFailed)
  /\ ((2 <= length (input_mapping_ view))%nat ->
      (2 <= input_count (op128_ view))%nat ->
      exists view', DuplicateFirstInput view b = Ok view'
        /\ input view' 0 b = input view 0 b
        /\ input view' 1 b = input view 0 b
        /\ DuplicateFirstInput view' b = Ok view'
        /\ SwapInputs view' = view').
Proof.
  destruct view as [node mapping op]. unfold DuplicateFirstInput. simpl.
  run_checks. split.
  - intros Hlen. rewrite bool_decide_eq_false_2 by lia. reflexivity.
  - intros Hlen Hcount.
    destruct mapping as [| m0 [| m1 rest]]; simpl in Hlen; try lia.
    simpl. rewrite !Build_Ok. eexists. split; [reflexivity |].
    unfold input, SwapInputs. simpl. run_checks.
    rewrite !bool_decide_eq_true_2 by lia. rewrite !Build_Ok.
    repeat split.
Qed.

Section CanonicalizeShuffleEdge.
Variable Selector : Type.
Variable GetVirtualRegister : OpIndex -> Selector -> Z * Selector.
Variable wasm_CanonicalizeShuffle :
  nat -> nat -> bool -> list Byte.byte -> list Byte.byte * bool * bool.

(** X15.  On a shuffle with fewer than two inputs the 128-bit
    [CanonicalizeShuffle] fails an assertion in a checked build, whatever the
    canonicaliser would say: reading [input(0)] or [input(1)] is out of
    bounds. *)
Theorem CanonicalizeShuffle_needs_two_inputs (node : OpIndex)
    (op : Simd128ShuffleOp) (shuffle_size : nat)
    (buffer : list Byte.byte) (sel : Selector) :
  (input_count op < 2)%nat ->
  CanonicalizeShuffle Selector GetVirtualRegister wasm_CanonicalizeShuffle
    kSimd128Size shuffle_size (simd_shuffle_view node op) buffer sel Checked
  = DCheckFailed.
Proof.
  intros Hcount.
  destruct op as [ins raw]. unfold input_count in Hcount. simpl in Hcount.
  destruct ins as [| in0 [| in1 rest]]; simpl in Hcount; try lia.
  - reflexivity.
  - unfold CanonicalizeShuffle, input, input_count, op_input. run_checks.
    destruct (GetVirtualRegister in0 sel) as [vreg0 sel0]. reflexivity.
Qed.
End CanonicalizeShuffleEdge.

Lemma CanonicalizeShuffle_needs_two_inputs_witness :
  CanonicalizeShuffle unit sample_GetVirtualRegister
    sample_wasm_CanonicalizeShuffle kSimd128Size kSimd128Size
    (simd_shuffle_view (Op 9) sample_one_input_op) sample_buffer tt Checked
  = DCheckFailed.
Proof.
  apply (CanonicalizeShuffle_needs_two_inputs unit sample_GetVirtualRegister
           sample_wasm_CanonicalizeShuffle (Op 9) sample_one_input_op
           kSimd128Size sample_buffer tt).
  vm_compute. lia.
Defined.

(** ** Load and store views: proofs *)

Ltac run_views :=
  unfold mbind, mret, R_bind, R_ret, dcheck, unreachable, lift, CHECK,
    DCHECK, UNREACHABLE; simpl.

Lemma Build_Return {A : Type} (b : Build) (x : A) :
  match b with Checked => Return x | Unchecked => Return x end = Return x.
Proof. destruct b; reflexivity. Qed.

(** X16.  [load_view] gives a view exactly for the operations [is_load]
    accepts, which are the ones the constructor of the view has a case for:
    on any other operation it fails its assertion in a checked build and
    reaches unreachable code otherwise.  On a view it gives, the accessors
    that pick between the load and the load transform all return, and a plain
    load by [IsLoadOrLoadImmutable] is a load by [is_load]. *)
Theorem load_view_spec (op : TsOperation) (node : OpIndex) (b : Build) :
  (is_load op = true ->
   exists v, load_view op node b = Return v
     /\ LoadView.node_ v = node
     /\ (exists k, LoadView.kind v b = Return k)
     /\ (exists base, LoadView.base v b = Return base)
     /\ (exists index, LoadView.index v b = Return index)
     /\ (exists size, LoadView.element_size_log2 v b = Return size)
     /\ (exists atomic, LoadView.is_atomic v b = Return atomic))
  /\ (is_load op = false ->
      load_view op node Checked = Die DCheckFailure
      /\ load_view op node Unchecked = Die UnreachableCode)
  /\ (IsLoadOrLoadImmutable op = true -> is_load op = true).
Proof.
  split; [| split].
  - intros H. destruct op; try discriminate H;
      (eexists; split; [destruct b; reflexivity |]);
      repeat split; eexists; reflexivity.
  - intros H. destruct op; try discriminate H; split; reflexivity.
  - destruct op; intros H; try discriminate H; reflexivity.
Qed.

Lemma int32_wrap_small (z : Z) : is_int32 z -> int32_wrap z = z.
Proof.
  unfold is_int32, kMinInt32, kMaxInt32, int32_wrap. intros H.
  rewrite Z.mod_small by lia. lia.
Qed.

Lemma untagged_displacement_spec (tag : Z) (kind : MemoryAccessOpKind)
    (offset : Z) (b : Build) :
  0 <= tag -> is_int32 offset ->
  (tagged_base kind = false ->
   untagged_displacement tag kind offset b = Return offset)
  /\ (tagged_base kind = true -> kMinInt32 + tag <= offset ->
      untagged_displacement tag kind offset b = Return (offset - tag)
      /\ is_int32 (offset - tag))
  /\ (tagged_base kind = true -> offset < kMinInt32 + tag ->
      untagged_displacement tag kind offset b = Die CheckFailure).
Proof.
  intros Htag Hoff. unfold untagged_displacement.
  split; [| split].
  - intros ->. reflexivity.
  - intros -> Hge. run_views.
    replace (kMinInt32 + tag <=? offset) with true
      by (symmetry; apply Z.leb_le; assumption).
    assert (Hin : is_int32 (offset - tag))
      by (unfold is_int32, kMinInt32, kMaxInt32 in *; lia).
    rewrite int32_wrap_small by assumption. split; [reflexivity | assumption].
  - intros -> Hlt. run_views.
    replace (kMinInt32 + tag <=? offset) with false
      by (symmetry; apply Z.leb_gt; assumption).
    reflexivity.
Qed.

(** X17.  The displacement of a store is its offset, and for a tagged base
    the offset less the heap object tag.  The subtraction never wraps around:
    when it would leave the range of [int32_t] the view fails a check, in
    every build. *)
Theorem StoreView_displacement_spec (tag : Z) (v : StoreView.t) (b : Build) :
  0 <= tag -> is_int32 (store_offset (StoreView.op_ v)) ->
  let kind := store_kind (StoreView.op_ v) in
  let offset := store_offset (StoreView.op_ v) in
  (tagged_base kind = false -> StoreView.displacement tag v b = Return offset)
  /\ (tagged_base kind = true -> kMinInt32 + tag <= offset ->
      StoreView.displacement tag v b = Return (offset - tag)
      /\ is_int32 (offset - tag))
  /\ (tagged_base kind = true -> offset < kMinInt32 + tag ->
      StoreView.displacement tag v b = Die CheckFailure).
Proof.
  intros Htag Hoff. unfold StoreView.displacement.
  apply untagged_displacement_spec; assumption.
Qed.

Lemma StoreView_displacement_spec_witness :
  (tagged_base sample_kind = false ->
   StoreView.displacement 1 sample_store_view Checked = Return 12)
  /\ (tagged_base sample_kind = true -> kMinInt32 + 1 <= 12 ->
      StoreView.displacement 1 sample_store_view Checked = Return (12 - 1)
      /\ is_int32 (12 - 1))
  /\ (tagged_base sample_kind = true -> 12 < kMinInt32 + 1 ->
      StoreView.displacement 1 sample_store_view Checked = Die CheckFailure).
Proof.
  apply (StoreView_displacement_spec 1 sample_store_view Checked);
    [lia | vm_compute; split; discriminate].
Defined.

(** X18.  The displacement of a load is computed as that of a store with the
    same kind and offset.  A load transform has no tagged base: its
    displacement is its offset, and a tagged base fails an assertion in a
    checked build. *)
Theorem LoadView_displacement_spec (tag : Z) (node : OpIndex) (l : LoadOp)
    (x : Simd128LoadTransformOp) (s : StoreOp) (b : Build) :
  (forall v, LoadView.make (TsLoad l) node b = Return v ->
   store_kind s = load_kind l -> store_offset s = load_offset l ->
   LoadView.displacement tag v b
   = StoreView.displacement tag
       {| StoreView.node_ := node; StoreView.op_ := s |} b)
  /\ (forall v, LoadView.make (TsSimd128LoadTransform x) node b = Return v ->
      (tagged_base (transform_load_kind x) = false ->
       LoadView.displacement tag v b = Return (transform_offset x))
      /\ (tagged_base (transform_load_kind x) = true ->
          LoadView.displacement tag v Checked = Die DCheckFailure
          /\ LoadView.displacement tag v Unchecked
             = Return (transform_offset x))).
Proof.
  split.
  - intros v Hv Hk Ho. unfold LoadView.make in Hv. run_views.
    injection Hv as <-. unfold LoadView.displacement, StoreView.displacement.
    simpl. rewrite Hk, Ho. reflexivity.
  - intros v Hv. unfold LoadView.make in Hv. run_views.
    injection Hv as <-. unfold LoadView.displacement. simpl. run_views.
    split; intros ->; simpl; [destruct b; reflexivity | split; reflexivity].
Qed.

Ltac solve_protected b :=
  repeat match goal with
         | H : false = true |- _ => discriminate H
         | H : true = false |- _ => discriminate H
         | H : Die _ = Return _ |- _ => discriminate H
         | |- _ /\ _ => split
         | |- forall _, _ => intro
         | H : Return _ = Return _ |- _ => injection H as <- <-
         | |- exists _, _ => eexists
         end;
  try reflexivity; try discriminate; try congruence;
  try (destruct b; reflexivity).

(** X19.  [is_protected] of a view made by the constructor returns whether
    the access uses the trap handler.  If it does not, the call returns
    false and [*traps_on_null] is left as it was.  If it does, the call
    returns true, and in a checked build [*traps_on_null] is set to whether
    the access traps on null, for a load and for a load transform alike: a
    load transform that would trap on null fails the assertion there, and
    gets false in a build without checks. *)
Theorem LoadView_is_protected_spec (op : TsOperation) (node : OpIndex)
    (v : LoadView.t) (k : MemoryAccessOpKind) (before : bool) (b : Build) :
  LoadView.make op node b = Return v ->
  LoadView.kind v b = Return k ->
  (with_trap_handler k = false ->
   LoadView.is_protected v before Checked = Return (false, before)
   /\ LoadView.is_protected v before Unchecked = Return (false, before))
  /\ (with_trap_handler k = true ->
      (IsLoadOrLoadImmutable op = true \/ trap_on_null k = false ->
       LoadView.is_protected v before Checked = Return (true, trap_on_null k))
      /\ (IsLoadOrLoadImmutable op = false -> trap_on_null k = true ->
          LoadView.is_protected v before Checked = Die DCheckFailure)
      /\ LoadView.is_protected v before Unchecked
         = Return (true, if IsLoadOrLoadImmutable op
                         then trap_on_null k else false))
  /\ (forall protected after,
      LoadView.is_protected v before Checked = Return (protected, after) ->
      protected = with_trap_handler k
      /\ (protected = true -> after = trap_on_null k)
      /\ (protected = false -> after = before)).
Proof.
  intros Hv Hk.
  destruct op as [l | x | | | |]; unfold LoadView.make in Hv; run_views;
    try discriminate Hv; try (destruct b; discriminate Hv);
    injection Hv as <-; unfold LoadView.kind in Hk; simpl in Hk; run_views;
    injection Hk as <-; unfold LoadView.is_protected, LoadView.kind; simpl;
    run_views.
  - destruct (with_trap_handler (load_kind l)); solve_protected b.
  - destruct (with_trap_handler (transform_load_kind x)),
      (trap_on_null (transform_load_kind x)); simpl; solve_protected b;
      match goal with H : _ \/ _ |- _ => destruct H; discriminate end.
Qed.

Lemma LoadView_is_protected_spec_witness :
  LoadView.is_protected
    {| LoadView.node_ := Op 3; LoadView.load_ := Some sample_load;
       LoadView.load_transform_ := None |} false Checked
  = Return (true, true).
Proof.
  destruct (LoadView_is_protected_spec (TsLoad sample_load) (Op 3)
              {| LoadView.node_ := Op 3; LoadView.load_ := Some sample_load;
                 LoadView.load_transform_ := None |}
              sample_kind false Checked eq_refl eq_refl) as (_ & H & _).
  destruct (H eq_refl) as (Hchecked & _ & _).
  apply Hchecked. left. reflexivity.
Defined.

(** ** Constants and frame state inputs: proofs *)

(** X20.  The three tests of a constant's kind exclude one another, and a
    node that is not a constant passes none of them. *)
Theorem constant_tests_exclusive (op : TsOperation) :
  (IsHeapConstant op = true ->
   IsExternalConstant op = false /\ IsRelocatableWasmConstant op = false)
  /\ (IsExternalConstant op = true ->
      IsHeapConstant op = false /\ IsRelocatableWasmConstant op = false)
  /\ (IsRelocatableWasmConstant op = true ->
      IsHeapConstant op = false /\ IsExternalConstant op = false)
  /\ (TryCast_ConstantOp op = None ->
      IsHeapConstant op = false /\ IsExternalConstant op = false
      /\ IsRelocatableWasmConstant op = false).
Proof.
  destruct op as [| | | kind | |]; try (repeat split; discriminate).
  destruct kind; repeat split; discriminate.
Qed.

(** X21.  [FrameStateInput::Equal] holds exactly of two inputs with the same
    node and the same kind, so the same node captured under the two kinds
    gives two keys; and inputs that are equal have the same hash. *)
Theorem FrameStateInput_Equal_spec (hash_combine : OpIndex -> Z -> Z)
    (lhs rhs : FrameStateInput.t) (n : OpIndex) :
  (FrameStateInput.Equal lhs rhs = true <-> lhs = rhs)
  /\ FrameStateInput.Equal lhs rhs = FrameStateInput.Equal rhs lhs
  /\ (FrameStateInput.Equal lhs rhs = true ->
      FrameStateInput.Hash hash_combine lhs = FrameStateInput.Hash hash_combine rhs)
  /\ FrameStateInput.Equal
       {| FrameStateInput.node := n; FrameStateInput.kind := kAny |}
       {| FrameStateInput.node := n; FrameStateInput.kind := kStackSlot |}
     = false.
Proof.
  assert (Hiff : FrameStateInput.Equal lhs rhs = true <-> lhs = rhs).
  { unfold FrameStateInput.Equal. destruct lhs as [ln lk], rhs as [rn rk]. simpl.
    rewrite andb_true_iff, !bool_decide_eq_true. split.
    - intros [-> ->]. reflexivity.
    - intros [= -> ->]. split; reflexivity. }
  split; [exact Hiff |]. split; [| split].
  - unfold FrameStateInput.Equal.
    destruct (decide (FrameStateInput.node lhs = FrameStateInput.node rhs)) as [Hn | Hn],
      (decide (FrameStateInput.kind lhs = FrameStateInput.kind rhs)) as [Hk | Hk].
    + rewrite !bool_decide_eq_true_2 by congruence. reflexivity.
    + rewrite (bool_decide_eq_false_2 _ Hk),
        (bool_decide_eq_false_2 (FrameStateInput.kind rhs = FrameStateInput.kind lhs))
        by congruence.
      rewrite !andb_false_r. reflexivity.
    + rewrite (bool_decide_eq_false_2 _ Hn),
        (bool_decide_eq_false_2 (FrameStateInput.node rhs = FrameStateInput.node lhs))
        by congruence.
      reflexivity.
    + rewrite (bool_decide_eq_false_2 _ Hn),
        (bool_decide_eq_false_2 (FrameStateInput.node rhs = FrameStateInput.node lhs))
        by congruence.
      reflexivity.
  - intros H. apply Hiff in H. rewrite H. reflexivity.
  - unfold FrameStateInput.Equal. simpl. apply andb_false_r.
Qed.

(** ** Heap object addresses: proofs *)

Section HeapObjectProofs.
Variable address_bits : Z.
Variable kHeapObjectTag : Z.
Variable tag_aligned : Z -> bool.
Hypothesis address_bits_nonneg : 0 <= address_bits.

Local Abbreviation wrap := (HeapObject.address_wrap address_bits).

Lemma address_modulus_pos : 0 < 2 ^ address_bits.
Proof. apply Z.pow_pos_nonneg; lia. Qed.

Lemma untag_tag (a : Z) :
  HeapObject.address address_bits kHeapObjectTag (wrap (a + kHeapObjectTag))
  = wrap a.
Proof.
  unfold HeapObject.address, HeapObject.address_wrap.
  pose proof address_modulus_pos.
  rewrite Zminus_mod_idemp_l. f_equal. lia.
Qed.

(** X22.  Round trip between an address and the tagged pointer.  The address
    of the heap object that [FromAddress] makes from an address is that
    address, and so is the address of the heap object at the pointer of a
    [HeapObjectLayout]; this holds across the wrap-around of [Address].
    [FromAddress] fails an assertion in a checked build when the address is
    not aligned. *)
Theorem FromAddress_address_roundtrip (a : Z) (b : Build) :
  0 <= a < 2 ^ address_bits ->
  (tag_aligned a = false ->
   HeapObject.FromAddress address_bits kHeapObjectTag tag_aligned a Checked
   = DCheckFailed)
  /\ (tag_aligned a = true \/ b = Unchecked ->
      exists ptr,
        HeapObject.FromAddress address_bits kHeapObjectTag tag_aligned a b = Ok ptr
        /\ 0 <= ptr < 2 ^ address_bits
        /\ HeapObject.address address_bits kHeapObjectTag ptr = a)
  /\ HeapObject.address address_bits kHeapObjectTag
       (HeapObject.layout_ptr address_bits kHeapObjectTag a) = a.
Proof.
  intros Ha. pose proof address_modulus_pos as Hpos.
  assert (Hwrap : wrap a = a) by (apply Z.mod_small; assumption).
  unfold HeapObject.FromAddress, HeapObject.layout_ptr. run_checks.
  split; [| split].
  - intros ->. reflexivity.
  - intros Hok. exists (wrap (a + kHeapObjectTag)). split; [| split].
    + destruct Hok as [-> | ->]; [destruct b |]; reflexivity.
    + apply Z.mod_pos_bound. assumption.
    + rewrite untag_tag. assumption.
  - rewrite untag_tag. assumption.
Qed.

(** X23.  The address of the field at [offset] is the address of the object
    plus the offset, in the arithmetic of [Address]; at offset 0 it is the
    address of the object. *)
Theorem field_address_spec (ptr offset : Z) :
  HeapObject.field_address address_bits kHeapObjectTag ptr offset
  = wrap (HeapObject.address address_bits kHeapObjectTag ptr + offset)
  /\ HeapObject.field_address address_bits kHeapObjectTag ptr 0
     = HeapObject.address address_bits kHeapObjectTag ptr.
Proof.
  unfold HeapObject.field_address, HeapObject.address, HeapObject.address_wrap.
  pose proof address_modulus_pos.
  split.
  - rewrite Zminus_mod_idemp_l, Zplus_mod_idemp_l. f_equal. lia.
  - rewrite Zminus_mod_idemp_l. f_equal. lia.
Qed.

(** X24.  Why the displacement of a store on a tagged base drops the tag: the
    tagged pointer of the object plus the displacement of the store is the
    address of the field at the store's offset. *)
Theorem displacement_reaches_field (v : StoreView.t) (ptr : Z) (b : Build) :
  0 <= kHeapObjectTag ->
  tagged_base (store_kind (StoreView.op_ v)) = true ->
  is_int32 (store_offset (StoreView.op_ v)) ->
  kMinInt32 + kHeapObjectTag <= store_offset (StoreView.op_ v) ->
  exists d, StoreView.displacement kHeapObjectTag v b = Return d
    /\ is_int32 d
    /\ wrap (ptr + d)
       = HeapObject.field_address address_bits kHeapObjectTag ptr
           (store_offset (StoreView.op_ v)).
Proof.
  intros Htag Hbase Hint Hge.
  unfold StoreView.displacement.
  destruct (untagged_displacement_spec kHeapObjectTag
              (store_kind (StoreView.op_ v)) (store_offset (StoreView.op_ v))
              b Htag Hint) as (_ & Hd & _).
  destruct (Hd Hbase Hge) as [Hret Hin].
  eexists. split; [exact Hret |]. split; [exact Hin |].
  unfold HeapObject.field_address, HeapObject.address_wrap.
  pose proof address_modulus_pos.
  rewrite Zminus_mod_idemp_l. f_equal. lia.
Qed.
End HeapObjectProofs.

Lemma FromAddress_address_roundtrip_witness :
  (sample_tag_aligned 4096 = false ->
   HeapObject.FromAddress 64 1 sample_tag_aligned 4096 Checked = DCheckFailed)
  /\ (sample_tag_aligned 4096 = true \/ Checked = Unchecked ->
      exists ptr,
        HeapObject.FromAddress 64 1 sample_tag_aligned 4096 Checked = Ok ptr
        /\ 0 <= ptr < 2 ^ 64
        /\ HeapObject.address 64 1 ptr = 4096)
  /\ HeapObject.address 64 1 (HeapObject.layout_ptr 64 1 4096) = 4096.
Proof.
  apply (FromAddress_address_roundtrip 64 1 sample_tag_aligned ltac:(lia)
           4096 Checked).
  vm_compute. split; [discriminate | reflexivity].
Defined.

Lemma field_address_spec_witness :
  HeapObject.field_address 64 1 4097 8
  = HeapObject.address_wrap 64 (HeapObject.address 64 1 4097 + 8)
  /\ HeapObject.field_address 64 1 4097 0 = HeapObject.address 64 1 4097.
Proof. apply (field_address_spec 64 1). lia. Defined.

Lemma displacement_reaches_field_witness :
  exists d, StoreView.displacement 1 sample_store_view Checked = Return d
    /\ is_int32 d
    /\ HeapObject.address_wrap 64 (4097 + d)
       = HeapObject.field_address 64 1 4097 (store_offset sample_store).
Proof.
  apply (displacement_reaches_field 64 1 ltac:(lia) sample_store_view 4097 Checked);
    [lia | reflexivity | vm_compute; split; discriminate | vm_compute; discriminate].
Defined.
